(** * mordred: the descriptor calculator ([mordred/_base/calculator.py])

    A shallow embedding of [Calculator]: registration of descriptors
    ([_register_one], [register]) and their evaluation against one
    structure ([_calculate_one], [_calculate], [__call__], [_serial]). *)

From Stdlib Require Import ZArith Bool Lia Sorted.
From stdpp Require Import base option list gmap sets strings.

Set Default Proof Using "Type".
Set Warnings "-clear-no-such-hyp".

(** ** Values and exceptions *)

(** Exception objects.  [MultipleFragments] and [DuplicatedDescriptorName]
    come from [mordred.error], [MissingValueException] from
    [mordred._base.descriptor]; [Raised n] stands for any other instance of
    [Exception] a descriptor may raise.  [DuplicatedDescriptorName] carries
    the identities of the new and of the old descriptor.
    [KeyboardInterrupt] and [SystemExit] derive from [BaseException] and
    are not instances of [Exception]. *)
Inductive exn : Type :=
  | MultipleFragments
  | MissingValueException (error : exn)
  | DuplicatedDescriptorName (desc old : nat)
  | ValueError
  | TypeError
  | AttributeError
  | RecursionError
  | IOError
  | KeyboardInterrupt
  | SystemExit
  | Raised (tag : nat).

(** [isinstance(e, Exception)] *)
Definition is_Exception (e : exn) : bool :=
  match e with
  | KeyboardInterrupt | SystemExit => false
  | _ => true
  end.

(** What a descriptor computes: a scalar, [None], or one of the tagged
    failures [Missing(error, stack)] and [Error(error, stack)].  The stack
    lists descriptor objects, which are referred to by their identity. *)
Inductive Value : Type :=
  | VNone
  | Scalar (z : Z)
  | Missing (error : exn) (stack : list nat)
  | Error (error : exn) (stack : list nat).

(** A call either returns or raises. *)
Inductive Outcome (A : Type) : Type :=
  | Return (a : A)
  | Raise (e : exn).
Arguments Return {A} a.
Arguments Raise {A} e.

Section Calculator.

(** The structure representation of the chemistry toolkit is opaque. *)
Context {Mol : Type}.

(** ** Evaluation context

    Modelled from the spec: [mordred._base.context.Context] is not part of
    this file.  A context owns one prepared structure and its fragment
    count, fixed when it is created, and a mutable diagnostic stack.  The
    record holds the fixed part together with the identity [cid] of the
    context object; the stack lives in the store, under [cid]. *)
Record Context : Type := mkContext {
  cid : nat;
  mol : Mol;
  n_frags : nat
}.

(** ** Descriptors

    Modelled from the spec: the [Descriptor] base class is not part of this
    file.  [uid] is the identity of the descriptor object; hashing and
    equality of descriptors (the keys of [_cache]) are its equality.
    [name] is [str(desc)], [dependencies] is [desc.dependencies() or {}] in
    iteration order, [calculate] is the unit's calculate operation as a function
    of the attached context and the keyword arguments. *)
#[warnings="-register-all"]
Inductive Descriptor : Type := mkDescriptor {
  uid : nat;
  name : string;
  explicit_hydrogens : bool;
  kekulize : bool;
  require_3D : bool;
  require_connected : bool;
  rtype : option (Value → bool);
  dependencies : list (string * option Descriptor);
  calculate : Context → list (string * Value) → Outcome Value
}.

(** Modelled from the spec: [Descriptor.fail(exception)] fails the unit
    with a missing-value condition that carries [exception]. *)
Definition fail (exception : exn) : exn := MissingValueException exception.

(** ** The store touched by an evaluation

    [_cache] is [Calculator._cache]; [_context] is the [_context] attribute
    of the descriptor objects (absent or a reference to a context);
    [stacks] holds the diagnostic stack of every context object (a context
    that never pushed has the empty stack); [calls] is a ghost log of the
    descriptors whose [calculate] was invoked, latest first. *)
Record Store : Type := mkStore {
  _cache : gmap nat Value;
  _context : gmap nat Context;
  stacks : gmap nat (list nat);
  calls : list nat
}.

Definition get_stack (cxt : Context) (st : Store) : list nat :=
  default [] (stacks st !! cid cxt).

(** [cxt.reset()] *)
Definition reset_stack (cxt : Context) (st : Store) : Store :=
  mkStore (_cache st) (_context st) (<[cid cxt := []]> (stacks st)) (calls st).

(** [cxt.add_stack(desc)] *)
Definition add_stack (cxt : Context) (desc : Descriptor) (st : Store) : Store :=
  mkStore (_cache st) (_context st)
          (<[cid cxt := get_stack cxt st ++ [uid desc]]> (stacks st)) (calls st).

(** [desc._context = cxt] *)
Definition set_context (desc : Descriptor) (cxt : Context) (st : Store) : Store :=
  mkStore (_cache st) (<[uid desc := cxt]> (_context st)) (stacks st) (calls st).

(** [del desc._context] when the attribute exists *)
Definition del_context (desc : Descriptor) (st : Store) : Store :=
  mkStore (_cache st) (delete (uid desc) (_context st)) (stacks st) (calls st).

(** [self._cache[desc] = r] *)
Definition cache_store (desc : Descriptor) (r : Value) (st : Store) : Store :=
  mkStore (<[uid desc := r]> (_cache st)) (_context st) (stacks st) (calls st).

(** [self._cache = {}] *)
Definition cache_clear (st : Store) : Store :=
  mkStore ∅ (_context st) (stacks st) (calls st).

Definition log_call (desc : Descriptor) (st : Store) : Store :=
  mkStore (_cache st) (_context st) (stacks st) (uid desc :: calls st).

(** ** The calculator object *)
Record Calculator : Type := mkCalculator {
  _descriptors : list Descriptor;
  _name_dict : gmap string Descriptor;
  _explicit_hydrogens : gset bool;
  _kekulizes : gset bool;
  _require_3D : bool;
  _debug : bool
}.

(** [Calculator._check_rtype]: [None] when the check passes.
    [isinstance(result, Error)] holds of the instances of the class
    [Error]; [Missing] is another class of [mordred.error], not a subclass
    of it. *)
Definition is_Error (result : Value) : bool :=
  match result with
  | Error _ _ => true
  | _ => false
  end.

Definition _check_rtype (desc : Descriptor) (result : Value) : option exn :=
  match rtype desc with
  | None => None
  | Some isinstance =>
      if is_Error result then None
      else if isinstance result then None
      else Some TypeError
  end.

(** [Calculator._calculate_one].  The dictionary comprehension that builds
    [args] is the inner loop; it stops at the first dependency that
    raises. *)
Fixpoint _calculate_one (self : Calculator) (cxt : Context) (desc : Descriptor)
    (reset : bool) (st : Store) {struct desc} : Store * Outcome Value :=
  match _cache st !! uid desc with
  | Some r => (st, Return r)
  | None =>
      let st := if reset then reset_stack cxt st else st in
      let st := set_context desc cxt st in
      let st := add_stack cxt desc st in
      match _context st !! uid desc with
      | None => (st, Raise AttributeError)
      | Some c =>
          if require_connected desc && negb (n_frags c =? 1)
          then (st, Raise (fail MultipleFragments))
          else
            let resolve :=
              fix resolve (deps : list (string * option Descriptor)) (st : Store)
                  : Store * Outcome (list (string * Value)) :=
                match deps with
                | [] => (st, Return [])
                | (name, dep) :: deps =>
                    match
                      match dep with
                      | Some dep => _calculate_one self cxt dep false st
                      | None => (st, Return VNone)
                      end
                    with
                    | (st, Raise e) => (st, Raise e)
                    | (st, Return v) =>
                        match resolve deps st with
                        | (st, Raise e) => (st, Raise e)
                        | (st, Return args) => (st, Return ((name, v) :: args))
                        end
                    end
                end in
            match resolve (dependencies desc) st with
            | (st, Raise e) => (st, Raise e)
            | (st, Return args) =>
                let st := log_call desc st in
                match calculate desc c args with
                | Raise e => (st, Raise e)
                | Return r =>
                    match (if _debug self then _check_rtype desc r else None) with
                    | Some e => (st, Raise e)
                    | None => (cache_store desc r st, Return r)
                    end
                end
            end
      end
  end.

(** The loop over the dependencies of a descriptor, on its own. *)
Definition resolve_deps (self : Calculator) (cxt : Context) :=
  fix resolve (deps : list (string * option Descriptor)) (st : Store)
    : Store * Outcome (list (string * Value)) :=
  match deps with
  | [] => (st, Return [])
  | (name, dep) :: deps =>
      match
        match dep with
        | Some dep => _calculate_one self cxt dep false st
        | None => (st, Return VNone)
        end
      with
      | (st, Raise e) => (st, Raise e)
      | (st, Return v) =>
          match resolve deps st with
          | (st, Raise e) => (st, Raise e)
          | (st, Return args) => (st, Return ((name, v) :: args))
          end
      end
  end.

(** The store on entry of a descriptor that is not in the cache: the stack
    is reset for a top-level request, the context is attached and the
    descriptor is pushed. *)
Definition enter (cxt : Context) (desc : Descriptor) (reset : bool) (st : Store) : Store :=
  add_stack cxt desc (set_context desc cxt (if reset then reset_stack cxt st else st)).

(** The single-fragment precondition of line 146. *)
Definition fragmented (c : Context) (desc : Descriptor) : bool :=
  require_connected desc && negb (n_frags c =? 1).

(** [calculate], the optional type check and the store into the cache. *)
Definition finish (self : Calculator) (c : Context) (desc : Descriptor)
    (args : list (string * Value)) (st : Store) : Store * Outcome Value :=
  let st := log_call desc st in
  match calculate desc c args with
  | Raise e => (st, Raise e)
  | Return r =>
      match (if _debug self then _check_rtype desc r else None) with
      | Some e => (st, Raise e)
      | None => (cache_store desc r st, Return r)
      end
  end.

(** The order of steps 2 to 4 of the specification, for comparison: the
    descriptor is pushed, its dependencies are resolved (in the same
    order, recursively), and only then is the single-fragment precondition
    checked, before [calculate]. *)
Fixpoint spec_calculate_one (self : Calculator) (cxt : Context) (desc : Descriptor)
    (reset : bool) (st : Store) {struct desc} : Store * Outcome Value :=
  match _cache st !! uid desc with
  | Some r => (st, Return r)
  | None =>
      let st := enter cxt desc reset st in
      let resolve :=
        fix resolve (deps : list (string * option Descriptor)) (st : Store)
            : Store * Outcome (list (string * Value)) :=
          match deps with
          | [] => (st, Return [])
          | (name, dep) :: deps =>
              match
                match dep with
                | Some dep => spec_calculate_one self cxt dep false st
                | None => (st, Return VNone)
                end
              with
              | (st, Raise e) => (st, Raise e)
              | (st, Return v) =>
                  match resolve deps st with
                  | (st, Raise e) => (st, Raise e)
                  | (st, Return args) => (st, Return ((name, v) :: args))
                  end
              end
          end in
      match resolve (dependencies desc) st with
      | (st, Raise e) => (st, Raise e)
      | (st, Return args) =>
          if fragmented cxt desc then (st, Raise (fail MultipleFragments))
          else finish self cxt desc args st
      end
  end.

(** The handlers of [_calculate]: what is yielded for the outcome of a
    top-level request.  The second handler is [except Exception]: an
    exception that is not an instance of [Exception] is not caught and
    leaves the generator.  Reading [desc._context] fails when the
    attribute is absent, and that exception leaves the generator too. *)
Definition handle (desc : Descriptor) (st : Store) (o : Outcome Value) : Outcome Value :=
  match o with
  | Return r => Return r
  | Raise (MissingValueException error) =>
      match _context st !! uid desc with
      | Some c => Return (Missing error (get_stack c st))
      | None => Raise AttributeError
      end
  | Raise e =>
      if is_Exception e then
        match _context st !! uid desc with
        | Some c => Return (Error e (get_stack c st))
        | None => Raise AttributeError
        end
      else Raise e
  end.

(** The exception with which an outcome passes both handlers, if any. *)
Definition escaping (o : Outcome Value) : option exn :=
  match o with
  | Return _ => None
  | Raise (MissingValueException _) => None
  | Raise e => if is_Exception e then None else Some e
  end.

(** The result that stands for the outcome [o] of a top-level request,
    when the stack of [cxt] is read in the store [st]: the value returned,
    [Missing] for a missing-value condition, [Error] for any other
    exception that the handlers catch. *)
Definition result_of (cxt : Context) (st : Store) (o : Outcome Value) : Value :=
  match o with
  | Return r => r
  | Raise (MissingValueException error) => Missing error (get_stack cxt st)
  | Raise e => Error e (get_stack cxt st)
  end.

(** One iteration of the loop of [_calculate]: the request, the handlers
    and the [finally] clause, which runs when the generator is resumed, or
    at once when an exception leaves it. *)
Definition _calculate_step (self : Calculator) (cxt : Context) (desc : Descriptor)
    (st : Store) : Store * Outcome Value :=
  let '(st, o) := _calculate_one self cxt desc true st in
  (del_context desc st, handle desc st o).

(** The generator [_calculate], driven to exhaustion as [list(...)] does in
    [__call__] and [_serial]: the final store, the values yielded, and the
    exception that left the generator, if any. *)
Fixpoint _calculate_loop (self : Calculator) (cxt : Context) (descs : list Descriptor)
    (st : Store) : Store * list Value * option exn :=
  match descs with
  | [] => (st, [], None)
  | desc :: descs =>
      match _calculate_step self cxt desc st with
      | (st, Raise e) => (st, [], Some e)
      | (st, Return y) =>
          let '(st, ys, e) := _calculate_loop self cxt descs st in
          (st, y :: ys, e)
      end
  end.

(** The store in which the iteration of the [i]-th descriptor starts. *)
Definition store_at (self : Calculator) (cxt : Context) (descs : list Descriptor)
    (i : nat) (st : Store) : Store :=
  (_calculate_loop self cxt (take i descs) st).1.1.

Definition _calculate (self : Calculator) (cxt : Context) (st : Store)
    : Store * list Value * option exn :=
  _calculate_loop self cxt (_descriptors self) (cache_clear st).


(** Modelled from the spec: [Context.from_calculator] is not part of this
    file; it builds the context of one structure from the aggregate flags
    of the calculator, and fails when 3D coordinates are required but
    absent. *)
Variable from_calculator : Calculator → Mol → Z → Outcome Context.

(** [Calculator.__call__] *)
Definition __call__ (self : Calculator) (mol : Mol) (id : Z) (st : Store)
    : Store * Outcome (list Value) :=
  match from_calculator self mol id with
  | Raise e => (st, Raise e)
  | Return cxt =>
      match _calculate self cxt st with
      | (st, ys, None) => (st, Return ys)
      | (st, _, Some e) => (st, Raise e)
      end
  end.

(** [Calculator._serial], without the progress bar and the capture of the
    console: one list of results per structure, in the order of [mols]. *)
Fixpoint _serial (self : Calculator) (mols : list Mol) (id : Z) (st : Store)
    : Store * list (list Value) * option exn :=
  match mols with
  | [] => (st, [], None)
  | m :: mols =>
      match __call__ self m id st with
      | (st, Raise e) => (st, [], Some e)
      | (st, Return r) =>
          let '(st, rs, e) := _serial self mols id st in
          (st, r :: rs, e)
      end
  end.

(** The column headers of [Calculator.pandas]. *)
Definition pandas_columns (self : Calculator) : list string :=
  name <$> _descriptors self.

(** ** Registration *)

(** The state of [Calculator.__init__] before [register] runs; the
    [descriptors] deleter resets a calculator to it. *)
Definition empty_calculator (debug : bool) : Calculator :=
  mkCalculator [] ∅ ∅ ∅ false debug.

(** Lines 92-94: the requirements of [desc] are folded into the aggregates. *)
Definition fold_flags (desc : Descriptor) (self : Calculator) : Calculator :=
  mkCalculator (_descriptors self) (_name_dict self)
    ({[explicit_hydrogens desc]} ∪ _explicit_hydrogens self)
    ({[kekulize desc]} ∪ _kekulizes self)
    (_require_3D self || require_3D desc)
    (_debug self).

(** Lines 106-107. *)
Definition append_descriptor (desc : Descriptor) (self : Calculator) : Calculator :=
  mkCalculator (_descriptors self ++ [desc]) (<[name desc := desc]> (_name_dict self))
    (_explicit_hydrogens self) (_kekulizes self) (_require_3D self) (_debug self).

(** [Calculator._register_one] on a [Descriptor] instance.  The calculator
    is returned with the outcome, because it is mutated before the
    duplicate name is detected.  The recursive call passes [check_only]
    alone, so [ignore_3D] is false for the dependencies. *)
Fixpoint _register_one (desc : Descriptor) (check_only ignore_3D : bool)
    (self : Calculator) {struct desc} : Calculator * Outcome unit :=
  if ignore_3D && require_3D desc then (self, Return tt)
  else
    let self := fold_flags desc self in
    let loop :=
      fix loop (deps : list (string * option Descriptor)) (self : Calculator)
          : Calculator * Outcome unit :=
        match deps with
        | [] => (self, Return tt)
        | (_, dep) :: deps =>
            match
              match dep with
              | Some dep => _register_one dep true false self
              | None => (self, Return tt)
              end
            with
            | (self, Raise e) => (self, Raise e)
            | (self, Return _) => loop deps self
            end
        end in
    match loop (dependencies desc) self with
    | (self, Raise e) => (self, Raise e)
    | (self, Return _) =>
        if check_only then (self, Return tt)
        else
          match _name_dict self !! name desc with
          | Some old => (self, Raise (DuplicatedDescriptorName (uid desc) (uid old)))
          | None => (append_descriptor desc self, Return tt)
          end
    end.

(** The loop over the dependencies in [_register_one], on its own. *)
Definition register_deps :=
  fix loop (deps : list (string * option Descriptor)) (self : Calculator)
    : Calculator * Outcome unit :=
  match deps with
  | [] => (self, Return tt)
  | (_, dep) :: deps =>
      match
        match dep with
        | Some dep => _register_one dep true false self
        | None => (self, Return tt)
        end
      with
      | (self, Raise e) => (self, Raise e)
      | (self, Return _) => loop deps self
      end
  end.

(** What [register] accepts: a descriptor instance; a descriptor class,
    given by the instances its [preset()] yields; a module, given by what
    [get_descriptors_from_module(mdl, True)] does on it, which raises or
    returns classes and submodules; an iterable, given by the objects it
    yields; a string; or any other object, which has no [__iter__]. *)
#[warnings="-register-all"]
Inductive DescriptorLike : Type :=
  | Instance (desc : Descriptor)
  | Class (preset : list Descriptor)
  | Module (scan : Outcome (list DescriptorLike))
  | Iterable (items : list DescriptorLike)
  | Text (s : string)
  | Other.

(** [for d in desc.preset(): self._register_one(d, ignore_3D=ignore_3D)] *)
Fixpoint register_preset (preset : list Descriptor) (ignore_3D : bool) (self : Calculator)
    : Calculator * Outcome unit :=
  match preset with
  | [] => (self, Return tt)
  | d :: preset =>
      match _register_one d false ignore_3D self with
      | (self, Raise e) => (self, Raise e)
      | (self, Return _) => register_preset preset ignore_3D self
      end
  end.

(** [register] on a string, which has [__iter__]: the loop of lines
    134-135 does nothing on the empty string; a character of a string is a
    string of one character, which yields itself, so that on any other
    string the recursion does not end and Python raises [RecursionError]. *)
Definition register_text (s : string) (self : Calculator) : Calculator * Outcome unit :=
  match s with
  | EmptyString => (self, Return tt)
  | String _ _ => (self, Raise RecursionError)
  end.

(** [Calculator.register].  The exception of the module scan of line 128
    is not caught.  An object that is not a descriptor and has no
    [__iter__] reaches [_register_one], whose first test raises
    [ValueError]. *)
Fixpoint register (desc : DescriptorLike) (ignore_3D : bool) (self : Calculator)
    {struct desc} : Calculator * Outcome unit :=
  let each :=
    fix each (items : list DescriptorLike) (self : Calculator) : Calculator * Outcome unit :=
      match items with
      | [] => (self, Return tt)
      | d :: items =>
          match register d ignore_3D self with
          | (self, Raise e) => (self, Raise e)
          | (self, Return _) => each items self
          end
      end in
  match desc with
  | Iterable items => each items self
  | Text s => register_text s self
  | Class preset => register_preset preset ignore_3D self
  | Module (Raise e) => (self, Raise e)
  | Module (Return members) => each members self
  | Instance d => _register_one d false ignore_3D self
  | Other => (self, Raise ValueError)
  end.

(** [for d in desc: self.register(d, ignore_3D=ignore_3D)], on its own. *)
Definition register_each (ignore_3D : bool) :=
  fix each (items : list DescriptorLike) (self : Calculator) : Calculator * Outcome unit :=
  match items with
  | [] => (self, Return tt)
  | d :: items =>
      match register d ignore_3D self with
      | (self, Raise e) => (self, Raise e)
      | (self, Return _) => each items self
      end
  end.

(** [Calculator.__init__] *)
Definition __init__ (descs : DescriptorLike) (ignore_3D : bool) : Calculator * Outcome unit :=
  register descs ignore_3D (empty_calculator false).

(** A sequence of calls of [register], each with its own [ignore_3D]; it
    stops at the first call that raises. *)
Fixpoint registrations (calls : list (DescriptorLike * bool)) (self : Calculator)
    : Calculator * Outcome unit :=
  match calls with
  | [] => (self, Return tt)
  | (desc, ignore_3D) :: calls =>
      match register desc ignore_3D self with
      | (self, Raise e) => (self, Raise e)
      | (self, Return _) => registrations calls self
      end
  end.

(** ** The units reachable from a descriptor *)

(** A descriptor followed by the descriptors reachable through its
    dependencies, in the order in which they are visited. *)
Fixpoint closure (desc : Descriptor) : list Descriptor :=
  desc ::
  (fix closure_deps (deps : list (string * option Descriptor)) : list Descriptor :=
     match deps with
     | [] => []
     | (_, Some dep) :: deps => closure dep ++ closure_deps deps
     | (_, None) :: deps => closure_deps deps
     end) (dependencies desc).

Definition closure_deps :=
  fix closure_deps (deps : list (string * option Descriptor)) : list Descriptor :=
  match deps with
  | [] => []
  | (_, Some dep) :: deps => closure dep ++ closure_deps deps
  | (_, None) :: deps => closure_deps deps
  end.

Definition reachable (descs : list Descriptor) : list Descriptor :=
  descs ≫= closure.

(** The requirements of a list of units folded into the aggregates, one
    unit after the other. *)
Definition fold_all (descs : list Descriptor) (self : Calculator) : Calculator :=
  foldl (λ self desc, fold_flags desc self) self descs.

(** The name lookup holds exactly the names of the registered units, and
    no two registered units share a name. *)
Definition names_ok (self : Calculator) : Prop :=
  NoDup (name <$> _descriptors self) ∧
  ∀ n, is_Some (_name_dict self !! n) ↔ n ∈ name <$> _descriptors self.

(** The aggregates of a calculator describe the units reachable from its
    registered descriptors: [_require_3D] is the disjunction of their
    [require_3D], and [_explicit_hydrogens] and [_kekulizes] are the sets of
    the values their flags take. *)
Definition aggregates_ok (self : Calculator) : Prop :=
  _require_3D self = existsb require_3D (reachable (_descriptors self)) ∧
  _explicit_hydrogens self =
    list_to_set (explicit_hydrogens <$> reachable (_descriptors self)) ∧
  _kekulizes self = list_to_set (kekulize <$> reachable (_descriptors self)).

(** The identity of a descriptor object determines the object: among the
    units reachable from [descs], two descriptors with the same [uid] are
    the same descriptor. *)
Definition identities_unique (descs : list Descriptor) : Prop :=
  ∀ a b, a ∈ reachable descs → b ∈ reachable descs → uid a = uid b → a = b.

(** ** The rest of the calculator object *)

(** [Calculator.__getitem__]; [None] stands for the [KeyError] of the
    dictionary. *)
Definition __getitem__ (self : Calculator) (key : string) : option Descriptor :=
  _name_dict self !! key.

(** [Calculator.__len__] *)
Definition __len__ (self : Calculator) : nat := length (_descriptors self).

(** The deleter of the [descriptors] property (lines 74-80); [_debug] is
    not touched. *)
Definition descriptors_del (self : Calculator) : Calculator :=
  mkCalculator [] ∅ ∅ ∅ false (_debug self).

(** The setter of the [descriptors] property (lines 69-72). *)
Definition descriptors_set (descs : DescriptorLike) (self : Calculator)
    : Calculator * Outcome unit :=
  register descs false (descriptors_del self).

(** The state dictionary handed to the pickler: each key may be absent. *)
Record State : Type := mkState {
  state_descriptors : option (list Descriptor);
  state_explicit_hydrogens : option (gset bool);
  state_kekulizes : option (gset bool);
  state_require_3D : option bool
}.

(** [{str(d): d for d in ds}]: a later descriptor replaces an earlier one
    of the same name. *)
Definition name_dict_of (ds : list Descriptor) : gmap string Descriptor :=
  foldl (λ m d, <[name d := d]> m) ∅ ds.

(** [Calculator.__setstate__]; the slot [_debug] is left as it is. *)
Definition __setstate__ (dict : State) (self : Calculator) : Calculator :=
  let ds := default [] (state_descriptors dict) in
  mkCalculator ds (name_dict_of ds)
    (default {[true; false]} (state_explicit_hydrogens dict))
    (default {[true; false]} (state_kekulizes dict))
    (default false (state_require_3D dict))
    (_debug self).

(** The state of [Calculator.__reduce_ex__], whose first two components
    are the class and the empty tuple of arguments. *)
Definition __reduce_ex__ (self : Calculator) : State :=
  mkState (Some (_descriptors self)) (Some (_explicit_hydrogens self))
          (Some (_kekulizes self)) (Some (_require_3D self)).

(** Unpickling: the class is called without arguments, which runs
    [__init__] with its defaults, and [__setstate__] receives the state. *)
Definition unpickle (dict : State) : Calculator :=
  __setstate__ dict (__init__ (Iterable []) false).1.

(** What [register] reaches, in order: the descriptor instances, and the
    exception of every object at which it raises without registering
    anything. *)
Fixpoint flatten_events (x : DescriptorLike) : list (Descriptor + exn) :=
  let each :=
    fix each (items : list DescriptorLike) : list (Descriptor + exn) :=
      match items with
      | [] => []
      | d :: items => flatten_events d ++ each items
      end in
  match x with
  | Instance d => [inl d]
  | Class preset => inl <$> preset
  | Module (Raise e) => [inr e]
  | Module (Return members) => each members
  | Iterable items => each items
  | Text EmptyString => []
  | Text (String _ _) => [inr RecursionError]
  | Other => [inr ValueError]
  end.

Definition flatten_events_each :=
  fix each (items : list DescriptorLike) : list (Descriptor + exn) :=
    match items with
    | [] => []
    | d :: items => flatten_events d ++ each items
    end.

(** The same sequence with [None] for an object at which [register]
    raises. *)
Definition flatten (x : DescriptorLike) : list (option Descriptor) :=
  (λ ev, match ev with inl d => Some d | inr _ => None end) <$> flatten_events x.

(** [_register_one] called on each descriptor of a flat sequence, up to the
    first call that raises or the first object that raises. *)
Fixpoint register_events (xs : list (Descriptor + exn)) (ignore_3D : bool)
    (self : Calculator) : Calculator * Outcome unit :=
  match xs with
  | [] => (self, Return tt)
  | inr e :: _ => (self, Raise e)
  | inl d :: xs =>
      match _register_one d false ignore_3D self with
      | (self, Raise e) => (self, Raise e)
      | (self, Return _) => register_events xs ignore_3D self
      end
  end.

(** The evaluation of a unit without cache and without stack, for
    comparison: the precondition, the dependencies in order up to the first
    that raises, [calculate], and the type check of debug mode. *)
Fixpoint pure_eval (debug : bool) (cxt : Context) (desc : Descriptor) {struct desc}
    : Outcome Value :=
  if fragmented cxt desc then Raise (fail MultipleFragments)
  else
    let resolve :=
      fix resolve (deps : list (string * option Descriptor))
          : Outcome (list (string * Value)) :=
        match deps with
        | [] => Return []
        | (name, dep) :: deps =>
            match
              match dep with
              | Some dep => pure_eval debug cxt dep
              | None => Return VNone
              end
            with
            | Raise e => Raise e
            | Return v =>
                match resolve deps with
                | Raise e => Raise e
                | Return args => Return ((name, v) :: args)
                end
            end
        end in
    match resolve (dependencies desc) with
    | Raise e => Raise e
    | Return args =>
        match calculate desc cxt args with
        | Raise e => Raise e
        | Return r =>
            match (if debug then _check_rtype desc r else None) with
            | Some e => Raise e
            | None => Return r
            end
        end
    end.

Definition pure_args (debug : bool) (cxt : Context) :=
  fix resolve (deps : list (string * option Descriptor))
      : Outcome (list (string * Value)) :=
    match deps with
    | [] => Return []
    | (name, dep) :: deps =>
        match
          match dep with
          | Some dep => pure_eval debug cxt dep
          | None => Return VNone
          end
        with
        | Raise e => Raise e
        | Return v =>
            match resolve deps with
            | Raise e => Raise e
            | Return args => Return ((name, v) :: args)
            end
        end
    end.

(** Every value the cache holds for a unit of [S] is the value of the
    unit. *)
Definition cache_sound (debug : bool) (cxt : Context) (S : list Descriptor) (st : Store)
    : Prop :=
  ∀ d v, d ∈ S → _cache st !! uid d = Some v → pure_eval debug cxt d = Return v.

(** A request for [desc] made with a sound cache has the outcome of the
    uncached evaluation and leaves the cache sound. *)
Definition request_sound (self : Calculator) (cxt : Context) (S : list Descriptor)
    (desc : Descriptor) : Prop :=
  closure desc ⊆ S →
  ∀ reset st st' o,
    cache_sound (_debug self) cxt S st →
    _calculate_one self cxt desc reset st = (st', o) →
    o = pure_eval (_debug self) cxt desc ∧ cache_sound (_debug self) cxt S st'.

(** What a request for [desc] pushes: the stack of [cxt] grows by units
    reachable from [desc], after a reset when a top-level request misses
    the cache, and a request that misses pushes [desc] first. *)
Definition request_pushes (self : Calculator) (cxt : Context) (desc : Descriptor) : Prop :=
  ∀ reset st st' o,
    _calculate_one self cxt desc reset st = (st', o) →
    ∃ new,
      get_stack cxt st' =
        (match _cache st !! uid desc with
         | None => if reset then [] else get_stack cxt st
         | Some _ => get_stack cxt st
         end) ++ new ∧
      Forall (λ k, k ∈ uid <$> closure desc) new ∧
      match _cache st !! uid desc with
      | None => ∃ rest, new = uid desc :: rest ∧
                        Forall (λ k, k ∈ uid <$> closure_deps (dependencies desc)) rest
      | Some _ => new = []
      end.

(** The name lookup maps the name of every registered unit to that unit,
    and holds nothing else. *)
Definition lookup_ok (self : Calculator) : Prop :=
  ∀ n d, _name_dict self !! n = Some d ↔ d ∈ _descriptors self ∧ name d = n.

(** ** Predicates used in the proofs *)

(** [P] holds of every descriptor a dependency map hands out. *)
Definition deps_all (P : Descriptor → Prop) (deps : list (string * option Descriptor)) : Prop :=
  ∀ name dep, (name, Some dep) ∈ deps → P dep.

(** [k] is the identity of a unit of [S] whose single-fragment
    precondition holds in [cxt]. *)
Definition passes (cxt : Context) (S : list Descriptor) (k : nat) : Prop :=
  ∃ d, d ∈ S ∧ uid d = k ∧ fragmented cxt d = false.

(** From [st] to [st'] the cache and the log of calls have grown, and only
    by units of [S] that were not in the cache of [st] and whose
    precondition holds. *)
Record growth (cxt : Context) (S : list Descriptor) (st st' : Store) : Prop := mkGrowth {
  growth_cache : _cache st ⊆ _cache st';
  growth_calls :
    ∃ new, calls st' = new ++ calls st ∧
           Forall (λ k, passes cxt S k ∧ _cache st !! k = None) new;
  growth_new : ∀ k, is_Some (_cache st' !! k) → is_Some (_cache st !! k) ∨ passes cxt S k
}.

(** A request, moreover, keeps every attachment to [cxt]. *)
Record frame (cxt : Context) (S : list Descriptor) (st st' : Store) : Prop := mkFrame {
  frame_growth : growth cxt S st st';
  frame_context : ∀ k, _context st !! k = Some cxt → _context st' !! k = Some cxt
}.

(** The property of one request that the induction carries. *)
Definition request_framed (self : Calculator) (cxt : Context) (desc : Descriptor) : Prop :=
  ∀ reset st st' o,
    _calculate_one self cxt desc reset st = (st', o) →
    frame cxt (closure desc) st st' ∧
    (∀ v, o = Return v → _cache st' !! uid desc = Some v) ∧
    (∀ e, o = Raise e → _context st' !! uid desc = Some cxt).

(** [kept strict I]: a direct registration keeps [I], whatever its outcome
    when [strict] is false, and when it returns otherwise. *)
Definition accepted (strict : bool) (o : Outcome unit) : Prop :=
  strict = false ∨ o = Return tt.

Definition kept (strict : bool) (I : Calculator → Prop) : Prop :=
  ∀ desc ignore_3D self self' o,
    I self → _register_one desc false ignore_3D self = (self', o) →
    accepted strict o → I self'.

(** Two stores agree for [cxt] when they hold the same cache and the same
    stack for [cxt]: this is all a request reads. *)
Definition agree (cxt : Context) (st1 st2 : Store) : Prop :=
  _cache st1 = _cache st2 ∧ get_stack cxt st1 = get_stack cxt st2.

(** Requests for [desc] made in stores that agree have the same outcome
    and leave stores that agree. *)
Definition request_agrees (self : Calculator) (cxt : Context) (desc : Descriptor) : Prop :=
  ∀ st1 st2 st1' st2' o1 o2,
    agree cxt st1 st2 →
    _calculate_one self cxt desc false st1 = (st1', o1) →
    _calculate_one self cxt desc false st2 = (st2', o2) →
    o1 = o2 ∧ agree cxt st1' st2'.

End Calculator.

(** * Descriptors of a module ([get_descriptors_from_module]) *)

Section ModuleScan.

(** The objects a module holds are opaque.  What the function asks of them
    comes from outside this file: [is_descriptor_class], the test
    [isinstance(fn, ModuleType)], the call [getsourcelines(d)[1]], which
    returns the line of the definition or raises ([IOError] when the source
    cannot be read, [TypeError] for a built-in object), and [sys.maxsize]. *)
Context {Obj : Type}.
Variable is_descriptor_class : Obj → bool.
Variable is_module : Obj → bool.
Variable getsourcelines : Obj → Outcome nat.
Variable maxsize : nat.

(** A module: its [__all__] when it has one, the names [dir] lists, and
    its attributes. *)
Record PyModule : Type := mkPyModule {
  mod_all : option (list string);
  mod_dir : list string;
  mod_attr : gmap string Obj
}.

(** [name[:1] != '_'] *)
Definition public (name : string) : bool := negb (String.prefix "_" name).

(** The inner function [check] of either branch. *)
Definition check (submodule : bool) (fn : Obj) : bool :=
  if submodule then is_descriptor_class fn || is_module fn
  else is_descriptor_class fn.

(** The inner function [key_by_def]: [IOError] alone is caught. *)
Definition key_by_def (d : Obj) : Outcome nat :=
  match getsourcelines d with
  | Return line => Return line
  | Raise IOError => Return maxsize
  | Raise e => Raise e
  end.

(** The key under which an object is sorted when the key function returns
    on it. *)
Definition sort_key (d : Obj) : nat :=
  match key_by_def d with
  | Return k => k
  | Raise _ => maxsize
  end.

(** The names the function goes through: [__all__], or [dir(mdl)] when
    the module has none. *)
Definition scanned_names (mdl : PyModule) : list string :=
  match mod_all mdl with
  | Some names => names
  | None => mod_dir mdl
  end.

(** The list comprehension of lines 320-324: [getattr] raises
    [AttributeError] for a name the module does not have. *)
Fixpoint collect (mdl : PyModule) (submodule : bool) (names : list string)
    : Outcome (list Obj) :=
  match names with
  | [] => Return []
  | name :: names =>
      if public name then
        match mod_attr mdl !! name with
        | None => Raise AttributeError
        | Some fn =>
            match collect mdl submodule names with
            | Raise e => Raise e
            | Return descs => Return (if check submodule fn then fn :: descs else descs)
            end
        end
      else collect mdl submodule names
  end.

(** [list.sort(key=...)] is a stable sort into ascending order of the
    keys; insertion from the right is one. *)
Fixpoint insert_by {A : Type} (key : A → nat) (x : A) (l : list A) : list A :=
  match l with
  | [] => [x]
  | y :: l' => if key x <=? key y then x :: l else y :: insert_by key x l'
  end.

Fixpoint sort_by {A : Type} (key : A → nat) (l : list A) : list A :=
  match l with
  | [] => []
  | x :: l => insert_by key x (sort_by key l)
  end.

(** [list.sort(key=...)] calls the key function on every element, from
    left to right, before it moves any; an exception of the key function
    leaves the sort. *)
Fixpoint decorate (descs : list Obj) : Outcome (list (nat * Obj)) :=
  match descs with
  | [] => Return []
  | d :: descs =>
      match key_by_def d with
      | Raise e => Raise e
      | Return k =>
          match decorate descs with
          | Raise e => Raise e
          | Return keyed => Return ((k, d) :: keyed)
          end
      end
  end.

(** [get_descriptors_from_module] *)
Definition get_descriptors_from_module (mdl : PyModule) (submodule : bool)
    : Outcome (list Obj) :=
  match collect mdl submodule (scanned_names mdl) with
  | Raise e => Raise e
  | Return descs =>
      match decorate descs with
      | Raise e => Raise e
      | Return keyed => Return (snd <$> sort_by fst keyed)
      end
  end.

End ModuleScan.

(** * Sample descriptors

    A small family of units over the one-point structure type, on which
    the definitions are run. *)

Module Samples.

Definition Unit := @Descriptor unit.

(** [A]: no dependencies, needs explicit hydrogens. *)
Definition sA : Unit :=
  mkDescriptor 1 "A" true false false false None [] (λ _ _, Return (Scalar 1)).

(** [B]: depends on [A]. *)
Definition sB : Unit :=
  mkDescriptor 2 "B" false false false false None [("a", Some sA)]
    (λ _ _, Return (Scalar 2)).

(** [C]: depends on [A] and requires 3D coordinates. *)
Definition sC : Unit :=
  mkDescriptor 3 "C" false true true false None [("a", Some sA)]
    (λ _ _, Return (Scalar 3)).

(** [D]: its computation has no defined answer. *)
Definition sD : Unit :=
  mkDescriptor 4 "D" false false false false None []
    (λ _ _, Raise (MissingValueException (Raised 0))).

(** [E]: depends on [D], and declares a dependency that is absent. *)
Definition sE : Unit :=
  mkDescriptor 5 "E" false false false false None [("d", Some sD); ("opt", None)]
    (λ _ _, Return (Scalar 5)).

(** [X]: its computation breaks. *)
Definition sX : Unit :=
  mkDescriptor 7 "X" false false false false None [] (λ _ _, Raise (Raised 7)).

(** [F]: requires a single fragment and depends on [X]. *)
Definition sF : Unit :=
  mkDescriptor 6 "F" false false false true None [("x", Some sX)]
    (λ _ _, Return (Scalar 6)).

(** A second unit named [A], which requires 3D coordinates. *)
Definition sA3 : Unit :=
  mkDescriptor 8 "A" false false true false None [] (λ _ _, Return (Scalar 8)).

(** [G]: does not require 3D coordinates itself, but depends on [C]. *)
Definition sG : Unit :=
  mkDescriptor 9 "G" false false false false None [("c", Some sC)]
    (λ _ _, Return (Scalar 9)).

(** A context with [n] fragments, and the store before any evaluation. *)
Definition cxt_of (n : nat) : @Context unit := mkContext 0 tt n.

Definition store0 : @Store unit := mkStore ∅ ∅ ∅ [].

(** Every structure has one fragment. *)
Definition from_calc (self : @Calculator unit) (mol : unit) (id : Z) : Outcome (@Context unit) :=
  Return (cxt_of 1).

(** A calculator in which [descs] were registered. *)
Definition calculator_of (descs : list Unit) : @Calculator unit :=
  (register (Iterable (Instance <$> descs)) false (empty_calculator false)).1.

(** The example of the specification: [A], [B] and [C] registered
    together with [ignore_3D]. *)
Definition spec_example : list (@DescriptorLike unit * bool) :=
  [(Iterable [Instance sA; Instance sB; Instance sC], true)].

(** [A] and [B] registered one after the other. *)
Definition two_registrations : list (@DescriptorLike unit * bool) :=
  [(Instance sA, false); (Instance sB, false)].

(** [T]: declares a result type that scalars do not have. *)
Definition sT : Unit :=
  mkDescriptor 10 "T" false false false false
    (Some (λ v, match v with Scalar _ => false | _ => true end)) []
    (λ _ _, Return (Scalar 10)).

(** A calculator in debug mode in which [descs] were registered. *)
Definition debug_calculator_of (descs : list Unit) : @Calculator unit :=
  (register (Iterable (Instance <$> descs)) false (empty_calculator true)).1.

(** A nested argument of [register], and an object that is no descriptor. *)
Definition nested : @DescriptorLike unit :=
  Iterable [Instance sB; Module (Return [Class [sC; sD]; Iterable []]); Instance sA].

Definition nested_bad : @DescriptorLike unit :=
  Iterable [Instance sB; Other; Instance sA].

(** The objects of a sample module: a kind (0 for a descriptor class, 1
    for a module, anything else otherwise) and what [getsourcelines] does
    on the object. *)
Definition Obj : Type := nat * Outcome nat.

Definition is_class (o : Obj) : bool := o.1 =? 0.
Definition is_mod (o : Obj) : bool := o.1 =? 1.
Definition line_of (o : Obj) : Outcome nat := o.2.

Definition sample_module : @PyModule Obj :=
  mkPyModule None ["Alpha"; "Zeta"; "_hidden"; "helper"; "sub"]
    (list_to_map [("Alpha", (0, Return 30)); ("Zeta", (0, Return 10));
                  ("_hidden", (0, Return 5)); ("helper", (2, Return 1));
                  ("sub", (1, Raise IOError))]).

(** A module whose [__all__] names an attribute it does not have. *)
Definition broken_module : @PyModule Obj :=
  mkPyModule (Some ["Alpha"; "Gone"]) ["Alpha"]
    (list_to_map [("Alpha", (0, Return 30))]).

(** A module that holds a built-in class. *)
Definition builtin_module : @PyModule Obj :=
  mkPyModule None ["Alpha"; "Native"]
    (list_to_map [("Alpha", (0, Return 30)); ("Native", (0, Raise TypeError))]).

(** [K]: interrupted while it computes. *)
Definition sK : Unit :=
  mkDescriptor 11 "K" false false false false None [] (λ _ _, Raise KeyboardInterrupt).

(** [H]: depends on [A], which returns, and on [D], which fails. *)
Definition sH : Unit :=
  mkDescriptor 12 "H" false false false false None [("a", Some sA); ("d", Some sD)]
    (λ _ _, Return (Scalar 12)).

(** A module whose scan raises, and a string. *)
Definition nested_scan_fails : @DescriptorLike unit :=
  Iterable [Instance sB; Module (Raise AttributeError); Instance sA].

Definition nested_text : @DescriptorLike unit :=
  Iterable [Instance sB; Text ""; Text "ab"; Instance sA].

Definition scan_sample : @PyModule Obj → bool → Outcome (list Obj) :=
  get_descriptors_from_module is_class is_mod line_of 1000.

End Samples.

(** * Properties *)

Section Properties.

Context {Mol : Type}.

Abbreviation Descriptor := (@Descriptor Mol).
Abbreviation Context := (@Context Mol).
Abbreviation Calculator := (@Calculator Mol).
Abbreviation Store := (@Store Mol).

(** ** Induction over the dependencies of a descriptor *)

Lemma deps_all_nil (P : Descriptor → Prop) : deps_all P [].
Proof. intros name dep H. inversion H. Qed.

Lemma deps_all_cons (P : Descriptor → Prop) name dep deps :
  match dep with Some d => P d | None => True end →
  deps_all P deps → deps_all P ((name, dep) :: deps).
Proof.
  intros Hd Hrest n d Hin. apply elem_of_cons in Hin as [Heq | Hin].
  - inversion Heq; subst. exact Hd.
  - eapply Hrest, Hin.
Qed.

Lemma deps_all_inv (P : Descriptor → Prop) name dep deps :
  deps_all P ((name, dep) :: deps) →
  match dep with Some d => P d | None => True end ∧ deps_all P deps.
Proof.
  intros H. split.
  - destruct dep as [d|]; [|exact I]. eapply H. left.
  - intros n d Hin. eapply H. right. exact Hin.
Qed.

Fixpoint Descriptor_deps_ind (P : Descriptor → Prop)
    (step : ∀ desc, deps_all P (dependencies desc) → P desc)
    (desc : Descriptor) {struct desc} : P desc.
Proof.
  apply step. destruct desc as [u n eh k r3 rc rt deps calc]. simpl.
  induction deps as [|[name [dep|]] deps IH].
  - apply deps_all_nil.
  - apply deps_all_cons; [apply (Descriptor_deps_ind P step dep) | exact IH].
  - apply deps_all_cons; [exact I | exact IH].
Defined.

(** ** The equations of the evaluator *)

Lemma _calculate_one_eq (self : Calculator) (cxt : Context) desc reset (st : Store) :
  _calculate_one self cxt desc reset st =
  match _cache st !! uid desc with
  | Some r => (st, Return r)
  | None =>
      let st1 := enter cxt desc reset st in
      match _context st1 !! uid desc with
      | None => (st1, Raise AttributeError)
      | Some c =>
          if fragmented c desc then (st1, Raise (fail MultipleFragments))
          else
            match resolve_deps self cxt (dependencies desc) st1 with
            | (st2, Raise e) => (st2, Raise e)
            | (st2, Return args) => finish self c desc args st2
            end
      end
  end.
Proof. destruct desc; reflexivity. Qed.

Lemma context_enter (cxt : Context) desc reset (st : Store) :
  _context (enter cxt desc reset st) !! uid desc = Some cxt.
Proof. destruct reset; simpl; apply lookup_insert_eq. Qed.

Lemma get_stack_enter (cxt : Context) desc reset st :
  get_stack cxt (enter cxt desc reset st) =
  (if reset then [] else get_stack cxt st) ++ [uid desc].
Proof.
  unfold enter, add_stack, get_stack. simpl. rewrite lookup_insert_eq. simpl.
  destruct reset; simpl; [rewrite lookup_insert_eq|]; reflexivity.
Qed.

Lemma cache_enter (cxt : Context) desc reset st :
  _cache (enter cxt desc reset st) = _cache st.
Proof. destruct reset; reflexivity. Qed.

Lemma _calculate_one_miss (self : Calculator) (cxt : Context) desc reset (st : Store) :
  _cache st !! uid desc = None →
  _calculate_one self cxt desc reset st =
  let st1 := enter cxt desc reset st in
  if fragmented cxt desc then (st1, Raise (fail MultipleFragments))
  else
    match resolve_deps self cxt (dependencies desc) st1 with
    | (st2, Raise e) => (st2, Raise e)
    | (st2, Return args) => finish self cxt desc args st2
    end.
Proof.
  intros Hmiss. rewrite _calculate_one_eq, Hmiss. cbv zeta.
  rewrite context_enter. reflexivity.
Qed.

Lemma _calculate_one_hit (self : Calculator) (cxt : Context) desc reset (st : Store) r :
  _cache st !! uid desc = Some r →
  _calculate_one self cxt desc reset st = (st, Return r).
Proof. intros Hhit. rewrite _calculate_one_eq, Hhit. reflexivity. Qed.

Lemma resolve_deps_cons (self : Calculator) (cxt : Context) name dep deps (st : Store) :
  resolve_deps self cxt ((name, dep) :: deps) st =
  match
    match dep with
    | Some dep => _calculate_one self cxt dep false st
    | None => (st, Return VNone)
    end
  with
  | (st, Raise e) => (st, Raise e)
  | (st, Return v) =>
      match resolve_deps self cxt deps st with
      | (st, Raise e) => (st, Raise e)
      | (st, Return args) => (st, Return ((name, v) :: args))
      end
  end.
Proof. reflexivity. Qed.

Lemma closure_eq (desc : Descriptor) :
  closure desc = desc :: closure_deps (dependencies desc).
Proof. destruct desc; reflexivity. Qed.

Lemma closure_self (desc : Descriptor) : desc ∈ closure desc.
Proof. rewrite closure_eq. left. Qed.

Lemma closure_deps_cons name dep (deps : list (string * option Descriptor)) :
  closure_deps ((name, dep) :: deps) =
  match dep with Some d => closure d | None => [] end ++ closure_deps deps.
Proof. destruct dep; reflexivity. Qed.

(** ** What an evaluation may change in the store *)

Lemma passes_mono (cxt : Context) S S' k : S ⊆ S' → passes cxt S k → passes cxt S' k.
Proof. intros HS (d & Hd & Hk & Hf). exists d. auto. Qed.

Lemma growth_refl (cxt : Context) S st : growth cxt S st st.
Proof.
  split; auto.
  exists []. split; [reflexivity | constructor].
Qed.

Lemma growth_mono (cxt : Context) S S' st st' :
  S ⊆ S' → growth cxt S st st' → growth cxt S' st st'.
Proof.
  intros HS [Hc (new & Hn & Hall) Hk]. split; auto.
  - exists new. split; [exact Hn|]. eapply Forall_impl; [exact Hall|].
    intros k [Hp Hm]. split; [eapply passes_mono; eauto | exact Hm].
  - intros k Hin. destruct (Hk k Hin); [left | right]; eauto using passes_mono.
Qed.

Lemma growth_trans (cxt : Context) S st1 st2 st3 :
  growth cxt S st1 st2 → growth cxt S st2 st3 → growth cxt S st1 st3.
Proof.
  intros [Hc1 (n1 & Hn1 & Ha1) Hk1] [Hc2 (n2 & Hn2 & Ha2) Hk2]. split.
  - etrans; eauto.
  - exists (n2 ++ n1). rewrite Hn2, Hn1, app_assoc. split; [reflexivity|].
    apply Forall_app. split; [|exact Ha1].
    eapply Forall_impl; [exact Ha2|]. intros k [Hp Hm]. split; [exact Hp|].
    eapply lookup_weaken_None; eauto.
  - intros k Hin. destruct (Hk2 k Hin) as [H2|H2]; auto.
Qed.

(** Growth does not look at the attachments. *)
Lemma growth_del_context (cxt : Context) S desc st st' :
  growth cxt S st st' → growth cxt S st (del_context desc st').
Proof. intros [Hc Hn Hk]. split; assumption. Qed.

Lemma frame_refl (cxt : Context) S st : frame cxt S st st.
Proof. split; [apply growth_refl | auto]. Qed.

Lemma frame_mono (cxt : Context) S S' st st' :
  S ⊆ S' → frame cxt S st st' → frame cxt S' st st'.
Proof. intros HS [Hg Hx]. split; [eapply growth_mono; eauto | exact Hx]. Qed.

Lemma frame_trans (cxt : Context) S st1 st2 st3 :
  frame cxt S st1 st2 → frame cxt S st2 st3 → frame cxt S st1 st3.
Proof.
  intros [Hg1 Hx1] [Hg2 Hx2]. split; [eapply growth_trans; eauto | auto].
Qed.

Lemma frame_enter (cxt : Context) S desc reset st :
  frame cxt S st (enter cxt desc reset st).
Proof.
  split; [split|].
  - destruct reset; reflexivity.
  - exists []. split; [destruct reset; reflexivity | constructor].
  - intros k Hk. left. destruct reset; exact Hk.
  - intros k Hk. destruct reset; simpl;
      (destruct (decide (uid desc = k)) as [->|Hne];
       [apply lookup_insert_eq | rewrite lookup_insert_ne by exact Hne; exact Hk]).
Qed.

(** The end of a request that was not served from the cache. *)
Lemma frame_finish (self : Calculator) (cxt : Context) S desc args st0 st st' o :
  desc ∈ S → fragmented cxt desc = false →
  _cache st0 !! uid desc = None →
  frame cxt S st0 st →
  finish self cxt desc args st = (st', o) →
  frame cxt S st0 st' ∧
  (∀ v, o = Return v → _cache st' !! uid desc = Some v) ∧
  _context st' = _context st.
Proof.
  intros Hin Hfrag Hmiss [[Hc (new & Hn & Hall) Hk] Hx] Hfin.
  assert (Hp : passes cxt S (uid desc)) by (exists desc; auto).
  unfold finish in Hfin.
  assert (Hlog : frame cxt S st0 (log_call desc st)).
  { split; [split|]; auto. exists (uid desc :: new). simpl. rewrite Hn.
    split; [reflexivity|]. constructor; [split|]; assumption. }
  destruct (calculate desc cxt args) as [r|e].
  2:{ simplify_eq. split; [exact Hlog|]. split; [intros v; discriminate | reflexivity]. }
  destruct (if _debug self then _check_rtype desc r else None) as [e|].
  { simplify_eq. split; [exact Hlog|]. split; [intros v; discriminate | reflexivity]. }
  simplify_eq. split; [|split].
  - destruct Hlog as [[Hc' Hn' Hk'] Hx']. split; [split|]; simpl; auto.
    + apply insert_subseteq_r; assumption.
    + intros k Hs. destruct (decide (uid desc = k)) as [<-|Hne]; [right; exact Hp|].
      rewrite lookup_insert_ne in Hs by exact Hne. apply Hk'. exact Hs.
  - intros v [= <-]. simpl. apply lookup_insert_eq.
  - reflexivity.
Qed.

Lemma resolve_deps_framed_aux (self : Calculator) (cxt : Context) deps :
  deps_all (request_framed self cxt) deps →
  ∀ st st' o, resolve_deps self cxt deps st = (st', o) →
              frame cxt (closure_deps deps) st st'.
Proof.
  induction deps as [|[name dep] deps IH]; intros Hall st st' o Hres.
  - simplify_eq/=. apply frame_refl.
  - apply deps_all_inv in Hall as [Hdep Hall].
    rewrite resolve_deps_cons in Hres. rewrite closure_deps_cons.
    assert (Hhead : ∀ st1 o1,
      match dep with
      | Some dep => _calculate_one self cxt dep false st
      | None => (st, Return VNone)
      end = (st1, o1) →
      frame cxt (match dep with Some d => closure d | None => [] end
                 ++ closure_deps deps) st st1).
    { intros st1 o1 Hone. destruct dep as [d|].
      - eapply frame_mono; [|eapply Hdep, Hone]. set_solver.
      - simplify_eq. apply frame_refl. }
    destruct (match dep with
              | Some dep => _calculate_one self cxt dep false st
              | None => (st, Return VNone) end) as [st1 [v|e]] eqn:Hone.
    2:{ simplify_eq. eapply Hhead. reflexivity. }
    destruct (resolve_deps self cxt deps st1) as [st2 o2] eqn:Htail.
    assert (st' = st2) as -> by (destruct o2; simplify_eq; reflexivity).
    eapply frame_trans; [eapply Hhead; reflexivity|].
    eapply frame_mono; [|eapply IH; eauto]. set_solver.
Qed.

Lemma _calculate_one_framed (self : Calculator) (cxt : Context) desc :
  request_framed self cxt desc.
Proof.
  induction desc as [desc IH] using Descriptor_deps_ind.
  intros reset st st' o Hone.
  destruct (_cache st !! uid desc) as [r|] eqn:Hcache.
  - rewrite (_calculate_one_hit _ _ _ _ _ _ Hcache) in Hone. simplify_eq.
    split; [apply frame_refl|]. split; [intros v [= <-]; exact Hcache | intros e; discriminate].
  - rewrite (_calculate_one_miss _ _ _ _ _ Hcache) in Hone. cbv zeta in Hone.
    pose proof (frame_enter cxt (closure desc) desc reset st) as Henter.
    destruct (fragmented cxt desc) eqn:Hfrag.
    { simplify_eq. split; [exact Henter|].
      split; [intros v; discriminate | intros e _; apply context_enter]. }
    destruct (resolve_deps self cxt (dependencies desc) (enter cxt desc reset st))
      as [st2 [args|e]] eqn:Hres.
    + pose proof (resolve_deps_framed_aux _ _ _ IH _ _ _ Hres) as Hdeps.
      assert (Hmid : frame cxt (closure desc) st st2).
      { eapply frame_trans; [exact Henter|].
        eapply frame_mono; [|exact Hdeps]. rewrite closure_eq. set_solver. }
      destruct (frame_finish _ _ _ _ _ _ _ _ _ (closure_self desc) Hfrag Hcache Hmid Hone)
        as (Hfr & Hret & Hctx).
      split; [exact Hfr|]. split; [exact Hret|].
      intros e _. rewrite Hctx. eapply frame_context; [exact Hdeps|]. apply context_enter.
    + simplify_eq.
      pose proof (resolve_deps_framed_aux _ _ _ IH _ _ _ Hres) as Hdeps.
      split; [|split; [intros v; discriminate|]].
      * eapply frame_trans; [exact Henter|].
        eapply frame_mono; [|exact Hdeps]. rewrite closure_eq. set_solver.
      * intros e' _. eapply frame_context; [exact Hdeps|]. apply context_enter.
Qed.

Lemma resolve_deps_framed (self : Calculator) (cxt : Context) deps st st' o :
  resolve_deps self cxt deps st = (st', o) → frame cxt (closure_deps deps) st st'.
Proof.
  apply resolve_deps_framed_aux. intros name dep _. apply _calculate_one_framed.
Qed.

(** ** The equations of registration *)

Lemma _register_one_eq desc check_only ignore_3D (self : Calculator) :
  _register_one desc check_only ignore_3D self =
  if ignore_3D && require_3D desc then (self, Return tt)
  else
    match register_deps (dependencies desc) (fold_flags desc self) with
    | (self, Raise e) => (self, Raise e)
    | (self, Return _) =>
        if check_only then (self, Return tt)
        else
          match _name_dict self !! name desc with
          | Some old => (self, Raise (DuplicatedDescriptorName (uid desc) (uid old)))
          | None => (append_descriptor desc self, Return tt)
          end
    end.
Proof. destruct desc; reflexivity. Qed.

Lemma register_deps_cons name dep deps (self : Calculator) :
  register_deps ((name, dep) :: deps) self =
  match
    match dep with
    | Some dep => _register_one dep true false self
    | None => (self, Return tt)
    end
  with
  | (self, Raise e) => (self, Raise e)
  | (self, Return _) => register_deps deps self
  end.
Proof. reflexivity. Qed.

Lemma fold_all_cons d ds (self : Calculator) :
  fold_all (d :: ds) self = fold_all ds (fold_flags d self).
Proof. reflexivity. Qed.

Lemma fold_all_app ds1 ds2 (self : Calculator) :
  fold_all (ds1 ++ ds2) self = fold_all ds2 (fold_all ds1 self).
Proof. apply foldl_app. Qed.

(** A dependency-only registration folds the requirements of the unit and
    of everything reachable from it, and nothing else happens. *)
Lemma register_deps_fold_aux deps :
  deps_all (λ desc, ∀ self : Calculator,
              _register_one desc true false self = (fold_all (closure desc) self, Return tt))
           deps →
  ∀ self : Calculator,
    register_deps deps self = (fold_all (closure_deps deps) self, Return tt).
Proof.
  induction deps as [|[name dep] deps IH]; intros Hall self; [reflexivity|].
  apply deps_all_inv in Hall as [Hdep Hall].
  rewrite register_deps_cons, closure_deps_cons, fold_all_app.
  destruct dep as [d|].
  - rewrite Hdep. apply IH, Hall.
  - apply IH, Hall.
Qed.

Lemma _register_one_check_only desc (self : Calculator) :
  _register_one desc true false self = (fold_all (closure desc) self, Return tt).
Proof.
  revert self. induction desc as [desc IH] using Descriptor_deps_ind. intros self.
  rewrite _register_one_eq. simpl.
  rewrite (register_deps_fold_aux _ IH). rewrite closure_eq. reflexivity.
Qed.

Lemma register_deps_fold deps (self : Calculator) :
  register_deps deps self = (fold_all (closure_deps deps) self, Return tt).
Proof.
  apply register_deps_fold_aux. intros name dep _. apply _register_one_check_only.
Qed.

(** [_register_one] in one piece. *)
Lemma _register_one_spec desc check_only ignore_3D (self : Calculator) :
  _register_one desc check_only ignore_3D self =
  if ignore_3D && require_3D desc then (self, Return tt)
  else
    let self1 := fold_all (closure desc) self in
    if check_only then (self1, Return tt)
    else
      match _name_dict self1 !! name desc with
      | Some old => (self1, Raise (DuplicatedDescriptorName (uid desc) (uid old)))
      | None => (append_descriptor desc self1, Return tt)
      end.
Proof.
  rewrite _register_one_eq. destruct (ignore_3D && require_3D desc); [reflexivity|].
  rewrite register_deps_fold, closure_eq. reflexivity.
Qed.

Lemma fold_all_descriptors ds (self : Calculator) :
  _descriptors (fold_all ds self) = _descriptors self ∧
  _name_dict (fold_all ds self) = _name_dict self ∧
  _debug (fold_all ds self) = _debug self.
Proof.
  revert self. induction ds as [|d ds IH]; intros self; [auto|].
  rewrite fold_all_cons. destruct (IH (fold_flags d self)) as (-> & -> & ->). auto.
Qed.

Lemma fold_all_require_3D ds (self : Calculator) :
  _require_3D (fold_all ds self) = _require_3D self || existsb require_3D ds.
Proof.
  revert self. induction ds as [|d ds IH]; intros self.
  - simpl. rewrite orb_false_r. reflexivity.
  - rewrite fold_all_cons, IH. simpl. rewrite orb_assoc. reflexivity.
Qed.

Lemma fold_all_explicit_hydrogens ds (self : Calculator) :
  _explicit_hydrogens (fold_all ds self) =
  _explicit_hydrogens self ∪ list_to_set (explicit_hydrogens <$> ds).
Proof.
  revert self. induction ds as [|d ds IH]; intros self.
  - simpl. set_solver.
  - rewrite fold_all_cons, IH. simpl. set_solver.
Qed.

Lemma fold_all_kekulizes ds (self : Calculator) :
  _kekulizes (fold_all ds self) = _kekulizes self ∪ list_to_set (kekulize <$> ds).
Proof.
  revert self. induction ds as [|d ds IH]; intros self.
  - simpl. set_solver.
  - rewrite fold_all_cons, IH. simpl. set_solver.
Qed.

(** ** Induction over what [register] accepts *)

Fixpoint DescriptorLike_items_ind (P : @DescriptorLike Mol → Prop)
    (HInstance : ∀ desc, P (Instance desc))
    (HClass : ∀ preset, P (Class preset))
    (HScan : ∀ e, P (Module (Raise e)))
    (HModule : ∀ members, Forall P members → P (Module (Return members)))
    (HIterable : ∀ items, Forall P items → P (Iterable items))
    (HText : ∀ s, P (Text s))
    (HOther : P Other)
    (x : DescriptorLike) {struct x} : P x.
Proof.
  destruct x as [desc|preset|[members|e]|items|s|].
  - apply HInstance.
  - apply HClass.
  - apply HModule. induction members as [|m members IH]; constructor;
      [apply (DescriptorLike_items_ind P); assumption | exact IH].
  - apply HScan.
  - apply HIterable. induction items as [|m items IH]; constructor;
      [apply (DescriptorLike_items_ind P); assumption | exact IH].
  - apply HText.
  - apply HOther.
Defined.

Lemma register_eq (x : DescriptorLike) ignore_3D (self : Calculator) :
  register x ignore_3D self =
  match x with
  | Iterable items => register_each ignore_3D items self
  | Text s => register_text s self
  | Class preset => register_preset preset ignore_3D self
  | Module (Raise e) => (self, Raise e)
  | Module (Return members) => register_each ignore_3D members self
  | Instance d => _register_one d false ignore_3D self
  | Other => (self, Raise ValueError)
  end.
Proof. destruct x as [| |[|]| | |]; reflexivity. Qed.

(** ** Properties kept by every registration *)

Lemma accepted_Return strict u : accepted strict (Return u).
Proof. destruct u. right. reflexivity. Qed.

Lemma register_preset_kept strict (I : Calculator → Prop) preset ignore_3D (self self' : Calculator) o :
  kept strict I → I self →
  register_preset preset ignore_3D self = (self', o) → accepted strict o → I self'.
Proof.
  intros Hkept. revert self. induction preset as [|d preset IH]; intros self HI Hreg Hacc.
  - simplify_eq/=. exact HI.
  - simpl in Hreg.
    destruct (_register_one d false ignore_3D self) as [s1 [u|e]] eqn:Hone.
    + eapply IH; [|exact Hreg|exact Hacc].
      eapply Hkept; [exact HI|exact Hone|apply accepted_Return].
    + simplify_eq. eapply Hkept; eauto.
Qed.

Lemma register_each_kept strict (I : Calculator → Prop) items ignore_3D :
  Forall (λ x, ∀ self self' o, I self → register x ignore_3D self = (self', o) →
                               accepted strict o → I self') items →
  ∀ self self' o, I self → register_each ignore_3D items self = (self', o) →
                  accepted strict o → I self'.
Proof.
  induction 1 as [|x items Hx _ IH]; intros self self' o HI Hreg Hacc.
  - simplify_eq/=. exact HI.
  - simpl in Hreg.
    destruct (register x ignore_3D self) as [s1 [u|e]] eqn:Hone.
    + eapply IH; [|exact Hreg|exact Hacc].
      eapply Hx; [exact HI|exact Hone|apply accepted_Return].
    + simplify_eq. eapply Hx; eauto.
Qed.

Lemma register_kept strict (I : Calculator → Prop) (x : DescriptorLike) ignore_3D (self self' : Calculator) o :
  kept strict I → I self →
  register x ignore_3D self = (self', o) → accepted strict o → I self'.
Proof.
  intros Hkept. revert self self' o.
  induction x as [desc|preset|e|members IH|items IH|s|] using DescriptorLike_items_ind;
    intros self self' o HI Hreg Hacc; rewrite register_eq in Hreg.
  - eapply Hkept; eauto.
  - eapply register_preset_kept; eauto.
  - simplify_eq. exact HI.
  - eapply register_each_kept; eauto.
  - eapply register_each_kept; eauto.
  - destruct s; simplify_eq/=; exact HI.
  - simplify_eq. exact HI.
Qed.

Lemma registrations_kept strict (I : Calculator → Prop) calls (self self' : Calculator) o :
  kept strict I → I self →
  registrations calls self = (self', o) → accepted strict o → I self'.
Proof.
  intros Hkept. revert self. induction calls as [|[x ig] calls IH]; intros self HI Hreg Hacc.
  - simplify_eq/=. exact HI.
  - simpl in Hreg. destruct (register x ig self) as [s1 [u|e]] eqn:Hone.
    + eapply IH; [|exact Hreg|exact Hacc].
      eapply register_kept; [exact Hkept|exact HI|exact Hone|apply accepted_Return].
    + simplify_eq. eapply register_kept; eauto.
Qed.

Lemma reachable_snoc (descs : list Descriptor) desc :
  reachable (descs ++ [desc]) = reachable descs ++ closure desc.
Proof.
  unfold reachable. rewrite bind_app. simpl. rewrite app_nil_r. reflexivity.
Qed.

Lemma names_ok_empty debug : names_ok (@empty_calculator Mol debug).
Proof.
  split; [constructor|]. intros n. simpl. rewrite lookup_empty. split.
  - intros [? ?]; discriminate.
  - intros H. inversion H.
Qed.

Lemma aggregates_ok_empty debug : aggregates_ok (@empty_calculator Mol debug).
Proof. repeat split. Qed.

Lemma names_ok_append desc (self : Calculator) :
  names_ok self → _name_dict self !! name desc = None →
  names_ok (append_descriptor desc self).
Proof.
  intros [Hnd Hdom] Hfree. split; simpl.
  - rewrite fmap_app. simpl. apply NoDup_app. split; [exact Hnd|]. split.
    + intros n Hn [->|Hnil]%elem_of_cons; [|inversion Hnil].
      apply Hdom in Hn. rewrite Hfree in Hn. destruct Hn; discriminate.
    + apply NoDup_singleton.
  - intros n. rewrite fmap_app, elem_of_app. simpl. rewrite list_elem_of_singleton.
    destruct (decide (name desc = n)) as [<-|Hne].
    + rewrite lookup_insert_eq. split; [auto | eauto].
    + rewrite lookup_insert_ne by exact Hne. rewrite Hdom. split; [auto|].
      intros [H|H]; [exact H | congruence].
Qed.

Lemma names_ok_fold_all ds (self : Calculator) : names_ok self → names_ok (fold_all ds self).
Proof.
  unfold names_ok. destruct (fold_all_descriptors ds self) as (-> & -> & _). auto.
Qed.

Lemma names_ok_kept : @kept Mol false names_ok.
Proof.
  intros desc ig self self' o HI Hone _. rewrite _register_one_spec in Hone.
  destruct (ig && require_3D desc); [simplify_eq; exact HI|]. cbv zeta in Hone.
  pose proof (names_ok_fold_all (closure desc) self HI) as HI1.
  destruct (_name_dict (fold_all (closure desc) self) !! name desc) eqn:Hfree; simplify_eq.
  - exact HI1.
  - apply names_ok_append; assumption.
Qed.

Lemma aggregates_ok_append desc (self : Calculator) :
  aggregates_ok self →
  aggregates_ok (append_descriptor desc (fold_all (closure desc) self)).
Proof.
  intros (H3 & Hh & Hk). unfold aggregates_ok. simpl.
  destruct (fold_all_descriptors (closure desc) self) as (-> & _ & _).
  rewrite fold_all_require_3D, fold_all_explicit_hydrogens, fold_all_kekulizes.
  rewrite reachable_snoc, existsb_app, !fmap_app, !list_to_set_app_L, H3, Hh, Hk.
  auto.
Qed.

Lemma aggregates_ok_kept : @kept Mol true aggregates_ok.
Proof.
  intros desc ig self self' o HI Hone [Hstrict | ->]; [discriminate|].
  rewrite _register_one_spec in Hone.
  destruct (ig && require_3D desc); [simplify_eq; exact HI|]. cbv zeta in Hone.
  destruct (_name_dict (fold_all (closure desc) self) !! name desc); simplify_eq.
  apply aggregates_ok_append, HI.
Qed.

Lemma prefix_kept (self0 : Calculator) :
  kept false (λ self, _descriptors self0 `prefix_of` _descriptors self).
Proof.
  intros desc ig self self' o HI Hone _. rewrite _register_one_spec in Hone.
  destruct (ig && require_3D desc); [simplify_eq; exact HI|]. cbv zeta in Hone.
  destruct (fold_all_descriptors (closure desc) self) as (Hd & Hn & _).
  destruct (_name_dict (fold_all (closure desc) self) !! name desc); simplify_eq.
  - rewrite Hd. exact HI.
  - simpl. rewrite Hd. etrans; [exact HI|]. apply prefix_app_r. reflexivity.
Qed.

(** ** Registration: names and aggregates *)

Lemma registrations_names_ok calls debug (self : Calculator) o :
  registrations calls (empty_calculator debug) = (self, o) → names_ok self.
Proof.
  intros Hreg.
  eapply (registrations_kept false names_ok); [apply names_ok_kept| |exact Hreg|left; reflexivity].
  apply names_ok_empty.
Qed.

Lemma registrations_aggregates_ok calls debug (self : Calculator) :
  registrations calls (empty_calculator debug) = (self, Return tt) → aggregates_ok self.
Proof.
  intros Hreg.
  eapply (registrations_kept true aggregates_ok);
    [apply aggregates_ok_kept| |exact Hreg|right; reflexivity].
  apply aggregates_ok_empty.
Qed.

Lemma existsb_elem_of (f : Descriptor → bool) ds :
  existsb f ds = true ↔ ∃ d, d ∈ ds ∧ f d = true.
Proof.
  rewrite existsb_exists. split; intros (d & Hd & Hf); exists d;
    (split; [apply list_elem_of_In; exact Hd | exact Hf]).
Qed.


(** C4, amended: after registrations that all returned, [_require_3D] is
    true exactly when a unit reachable from the registered descriptors
    requires 3D; with [ignore_3D] a unit passed to [_register_one] that
    requires 3D is skipped and the calculator is left as it is; but the
    dependencies of a unit that is not skipped are registered without
    [ignore_3D], so one of them that requires 3D sets the aggregate. *)
Theorem require_3D_aggregate calls debug (self : Calculator) :
  registrations calls (empty_calculator debug) = (self, Return tt) →
  (_require_3D self = true ↔
   ∃ d, d ∈ reachable (_descriptors self) ∧ require_3D d = true) ∧
  (∀ desc check_only,
     require_3D desc = true →
     _register_one desc check_only true self = (self, Return tt)) ∧
  (∀ desc check_only ignore_3D dep,
     ignore_3D && require_3D desc = false →
     dep ∈ closure desc → require_3D dep = true →
     _require_3D (_register_one desc check_only ignore_3D self).1 = true).
Proof.
  intros Hreg. destruct (registrations_aggregates_ok _ _ _ Hreg) as (H3 & _ & _).
  split; [|split].
  - rewrite H3. apply existsb_elem_of.
  - intros desc co Hd. rewrite _register_one_spec, Hd. reflexivity.
  - intros desc co ig dep Hguard Hdep Hd3. rewrite _register_one_spec, Hguard. cbv zeta.
    assert (Hfold : _require_3D (fold_all (closure desc) self) = true).
    { rewrite fold_all_require_3D. apply orb_true_iff. right.
      apply existsb_elem_of. eauto. }
    destruct co; [exact Hfold|].
    destruct (_name_dict (fold_all (closure desc) self) !! name desc); exact Hfold.
Qed.

(** C7, amended: after registrations that all returned, [_require_3D] is
    the disjunction of [require_3D] over the units reachable from the
    registered descriptors, dependencies included; [_explicit_hydrogens]
    and [_kekulizes] are sets of booleans, which hold exactly the values
    the flag takes over those units, so that [true] is a member exactly
    when the disjunction of the flag is true. *)
Theorem aggregates_cover_reachable calls debug (self : Calculator) :
  registrations calls (empty_calculator debug) = (self, Return tt) →
  _require_3D self = existsb require_3D (reachable (_descriptors self)) ∧
  (∀ b, b ∈ _explicit_hydrogens self ↔
        ∃ d, d ∈ reachable (_descriptors self) ∧ explicit_hydrogens d = b) ∧
  (∀ b, b ∈ _kekulizes self ↔
        ∃ d, d ∈ reachable (_descriptors self) ∧ kekulize d = b) ∧
  (true ∈ _explicit_hydrogens self ↔
   existsb explicit_hydrogens (reachable (_descriptors self)) = true) ∧
  (true ∈ _kekulizes self ↔
   existsb kekulize (reachable (_descriptors self)) = true).
Proof.
  intros Hreg. destruct (registrations_aggregates_ok _ _ _ Hreg) as (H3 & Hh & Hk).
  assert (Hmem : ∀ (f : Descriptor → bool) ds b,
            b ∈ (list_to_set (f <$> ds) : gset bool) ↔ ∃ d, d ∈ ds ∧ f d = b).
  { intros f ds b. rewrite elem_of_list_to_set, list_elem_of_fmap.
    split; intros (d & H1 & H2); exists d; auto. }
  split; [exact H3|]. rewrite Hh, Hk.
  split; [apply Hmem|]. split; [apply Hmem|].
  split; rewrite Hmem, existsb_elem_of; reflexivity.
Qed.

(** ** One iteration of [_calculate] *)

Lemma escaping_Some o err :
  escaping o = Some err → o = Raise err ∧ is_Exception err = false.
Proof.
  destruct o as [r|e]; [discriminate|]. unfold escaping.
  destruct e; simpl; try discriminate; intros [= <-]; auto.
Qed.

Lemma escaping_Return v : escaping (Return v) = None.
Proof. reflexivity. Qed.

Lemma handle_result (self : Calculator) (cxt : Context) desc st st1 o :
  _calculate_one self cxt desc true st = (st1, o) →
  handle desc st1 o =
  match escaping o with
  | Some e => Raise e
  | None => Return (result_of cxt st1 o)
  end.
Proof.
  intros Hone. destruct o as [r|e]; [reflexivity|].
  destruct (_calculate_one_framed self cxt desc _ _ _ _ Hone) as (_ & _ & Hctx).
  unfold handle, escaping. rewrite (Hctx e eq_refl). destruct e; reflexivity.
Qed.

Lemma _calculate_step_eq (self : Calculator) (cxt : Context) desc st st1 o :
  _calculate_one self cxt desc true st = (st1, o) →
  _calculate_step self cxt desc st =
  (del_context desc st1,
   match escaping o with
   | Some e => Raise e
   | None => Return (result_of cxt st1 o)
   end).
Proof.
  intros Hone. unfold _calculate_step. rewrite Hone.
  rewrite (handle_result _ _ _ _ _ _ Hone). reflexivity.
Qed.

Lemma _calculate_loop_cons (self : Calculator) (cxt : Context) desc descs st st1 o :
  _calculate_one self cxt desc true st = (st1, o) →
  _calculate_loop self cxt (desc :: descs) st =
  match escaping o with
  | Some e => (del_context desc st1, [], Some e)
  | None =>
      let '(st', ys, e) := _calculate_loop self cxt descs (del_context desc st1) in
      (st', result_of cxt st1 o :: ys, e)
  end.
Proof.
  intros Hone. simpl. rewrite (_calculate_step_eq _ _ _ _ _ _ Hone).
  destruct (escaping o); reflexivity.
Qed.

(** The loop yields a result for every descriptor, unless an exception
    leaves it before the last one. *)
Lemma _calculate_loop_length (self : Calculator) (cxt : Context) descs st :
  match (_calculate_loop self cxt descs st).2 with
  | None => length (_calculate_loop self cxt descs st).1.2 = length descs
  | Some _ => length (_calculate_loop self cxt descs st).1.2 < length descs
  end.
Proof.
  revert st. induction descs as [|desc descs IH]; intros st; [reflexivity|].
  destruct (_calculate_one self cxt desc true st) as [st1 o] eqn:Hone.
  rewrite (_calculate_loop_cons _ _ _ _ _ _ _ Hone).
  destruct (escaping o); [simpl; lia|].
  specialize (IH (del_context desc st1)).
  destruct (_calculate_loop self cxt descs (del_context desc st1)) as [[s' ys] [e|]];
    simpl in *; lia.
Qed.

(** When the first [i] descriptors have yielded their results, the [i]-th
    descriptor is requested in the store they leave; its result is the
    [i]-th one, unless its exception leaves the generator; either way the
    iteration ends with the [finally] clause. *)
Lemma _calculate_loop_lookup (self : Calculator) (cxt : Context) descs st i desc :
  descs !! i = Some desc →
  i ≤ length (_calculate_loop self cxt descs st).1.2 →
  ∃ st1 o,
    _calculate_one self cxt desc true (store_at self cxt descs i st) = (st1, o) ∧
    store_at self cxt descs (S i) st = del_context desc st1 ∧
    match escaping o with
    | None => (_calculate_loop self cxt descs st).1.2 !! i = Some (result_of cxt st1 o)
    | Some err =>
        (_calculate_loop self cxt descs st).2 = Some err ∧
        length (_calculate_loop self cxt descs st).1.2 = i ∧
        (_calculate_loop self cxt descs st).1.1 = del_context desc st1
    end.
Proof.
  unfold store_at. revert st i.
  induction descs as [|d descs IH]; intros st i Hi Hlen; [discriminate|].
  destruct (_calculate_one self cxt d true st) as [sd od] eqn:Hd.
  destruct i as [|i].
  - injection Hi as ->. exists sd, od. rewrite take_0. split; [exact Hd|].
    change (take 1 (desc :: descs)) with (desc :: take 0 descs).
    rewrite !(_calculate_loop_cons _ _ _ _ _ _ _ Hd). rewrite take_0.
    destruct (escaping od); [auto|]. simpl.
    destruct (_calculate_loop self cxt descs (del_context desc sd)) as [[s' ys] e].
    split; reflexivity.
  - simpl in Hi.
    change (take (S (S i)) (d :: descs)) with (d :: take (S i) descs).
    change (take (S i) (d :: descs)) with (d :: take i descs).
    rewrite (_calculate_loop_cons _ _ _ _ _ _ _ Hd) in Hlen.
    rewrite !(_calculate_loop_cons _ _ _ _ _ _ _ Hd).
    destruct (escaping od); [simpl in Hlen; lia|].
    assert (Hlen' : i ≤ length (_calculate_loop self cxt descs (del_context d sd)).1.2).
    { destruct (_calculate_loop self cxt descs (del_context d sd)) as [[s' ys] e].
      simpl in *. lia. }
    destruct (IH (del_context d sd) i Hi Hlen') as (st1 & o & Hone & Hnext & Hy).
    exists st1, o.
    destruct (_calculate_loop self cxt descs (del_context d sd)) as [[s' ys] e].
    destruct (_calculate_loop self cxt (take i descs) (del_context d sd)) as [[s1 ys1] e1].
    destruct (_calculate_loop self cxt (take (S i) descs) (del_context d sd)) as [[s2 ys2] e2].
    simpl in *. split; [exact Hone|]. split; [exact Hnext|].
    destruct (escaping o); [|exact Hy].
    destruct Hy as (He & Hl & Hs). split; [exact He|]. split; [f_equal; exact Hl | exact Hs].
Qed.

(** An exception that leaves the loop is the one of the request of the
    descriptor after the last that yielded. *)
Lemma _calculate_loop_escape (self : Calculator) (cxt : Context) descs st err :
  (_calculate_loop self cxt descs st).2 = Some err →
  is_Exception err = false ∧
  ∃ desc st1,
    descs !! length (_calculate_loop self cxt descs st).1.2 = Some desc ∧
    _calculate_one self cxt desc true
      (store_at self cxt descs (length (_calculate_loop self cxt descs st).1.2) st)
    = (st1, Raise err) ∧
    (_calculate_loop self cxt descs st).1.1 = del_context desc st1.
Proof.
  intros He. pose proof (_calculate_loop_length self cxt descs st) as Hlen.
  rewrite He in Hlen. apply lookup_lt_is_Some_2 in Hlen as [desc Hdesc].
  destruct (_calculate_loop_lookup self cxt descs st _ desc Hdesc (Nat.le_refl _))
    as (st1 & o & Hone & _ & Hy).
  destruct (escaping o) as [err'|] eqn:Hesc.
  - destruct Hy as (He' & _ & Hs). rewrite He in He'. injection He' as <-.
    apply escaping_Some in Hesc as [-> Hexc].
    split; [exact Hexc|]. exists desc, st1. auto.
  - apply lookup_lt_Some in Hy. lia.
Qed.

(** Without an exception that leaves it, the loop yields every result. *)
Lemma _calculate_loop_complete (self : Calculator) (cxt : Context) descs st i :
  (_calculate_loop self cxt descs st).2 = None → i < length descs →
  i < length (_calculate_loop self cxt descs st).1.2.
Proof.
  intros He Hi. pose proof (_calculate_loop_length self cxt descs st) as Hlen.
  rewrite He in Hlen. lia.
Qed.

(** C1, amended: for every registry and every context, [_calculate] yields
    the results of the registered descriptors in order, one for each,
    unless the request of a descriptor raises an exception that is not an
    instance of [Exception]: that exception leaves the generator, after the
    [finally] clause, and the descriptor and those after it get no result.
    The result of a descriptor is the value its request returned,
    [Missing] with the stack of the context when the request raised a
    missing-value condition, and [Error] with that stack when it raised any
    other instance of [Exception]. *)
Theorem calculate_one_result_per_unit (self : Calculator) (cxt : Context) (st : Store) :
  ∃ st' ys e,
    _calculate self cxt st = (st', ys, e) ∧
    (∀ i desc, _descriptors self !! i = Some desc → i < length ys →
       ∃ st1 o y,
         _calculate_one self cxt desc true
           (store_at self cxt (_descriptors self) i (cache_clear st)) = (st1, o) ∧
         ys !! i = Some y ∧
         match o with
         | Return r => y = r
         | Raise (MissingValueException error) => y = Missing error (get_stack cxt st1)
         | Raise e => is_Exception e = true ∧ y = Error e (get_stack cxt st1)
         end) ∧
    match e with
    | None => length ys = length (_descriptors self)
    | Some err =>
        is_Exception err = false ∧
        ∃ desc st1,
          _descriptors self !! length ys = Some desc ∧
          _calculate_one self cxt desc true
            (store_at self cxt (_descriptors self) (length ys) (cache_clear st))
          = (st1, Raise err) ∧
          st' = del_context desc st1
    end.
Proof.
  unfold _calculate.
  destruct (_calculate_loop self cxt (_descriptors self) (cache_clear st))
    as [[st' ys] e] eqn:Hloop.
  exists st', ys, e. split; [reflexivity|]. split.
  - intros i desc Hi Hlt.
    destruct (_calculate_loop_lookup self cxt _ (cache_clear st) i desc Hi)
      as (st1 & o & Hone & _ & Hy); [rewrite Hloop; simpl; lia|].
    rewrite Hloop in Hy. simpl in Hy.
    exists st1, o, (result_of cxt st1 o). split; [exact Hone|].
    destruct (escaping o) as [err|] eqn:Hesc; [destruct Hy as (_ & Hl & _); lia|].
    split; [exact Hy|].
    destruct o as [r|[]]; simpl in *; try reflexivity; try discriminate;
      split; reflexivity.
  - pose proof (_calculate_loop_length self cxt (_descriptors self) (cache_clear st)) as Hlen.
    destruct e as [err|].
    + pose proof (_calculate_loop_escape self cxt (_descriptors self) (cache_clear st) err)
        as Hesc.
      rewrite Hloop in Hesc. simpl in Hesc. exact (Hesc eq_refl).
    + rewrite Hloop in Hlen. exact Hlen.
Qed.

(** ** The whole loop *)

Lemma reachable_cons desc (descs : list Descriptor) :
  reachable (desc :: descs) = closure desc ++ reachable descs.
Proof. reflexivity. Qed.

Lemma reachable_take (descs : list Descriptor) i : reachable (take i descs) ⊆ reachable descs.
Proof.
  intros d. unfold reachable. rewrite !list_elem_of_bind.
  intros (x & Hd & Hx). exists x. split; [exact Hd|]. eapply subseteq_take, Hx.
Qed.

Lemma reachable_lookup (descs : list Descriptor) i desc :
  descs !! i = Some desc → desc ∈ reachable descs.
Proof.
  intros Hi. unfold reachable. apply list_elem_of_bind. exists desc.
  split; [apply closure_self | eapply list_elem_of_lookup_2, Hi].
Qed.

Lemma _calculate_loop_growth (self : Calculator) (cxt : Context) descs st :
  growth cxt (reachable descs) st (_calculate_loop self cxt descs st).1.1.
Proof.
  revert st. induction descs as [|desc descs IH]; intros st; [apply growth_refl|].
  destruct (_calculate_one self cxt desc true st) as [st1 o] eqn:Hone.
  rewrite (_calculate_loop_cons _ _ _ _ _ _ _ Hone), reachable_cons.
  assert (Hfirst : growth cxt (closure desc ++ reachable descs) st (del_context desc st1)).
  { eapply growth_mono; [|apply growth_del_context, frame_growth,
                           (_calculate_one_framed self cxt desc _ _ _ _ Hone)].
    set_solver. }
  destruct (escaping o); [exact Hfirst|].
  specialize (IH (del_context desc st1)).
  destruct (_calculate_loop self cxt descs (del_context desc st1)) as [[s' ys] e].
  cbn [fst snd] in *.
  eapply growth_trans; [exact Hfirst|].
  eapply growth_mono; [|exact IH]. set_solver.
Qed.

(** Among units with unique identities, no unit whose precondition fails
    in [cxt] has the identity of one whose precondition holds. *)
Lemma fragmented_not_passes (cxt : Context) descs desc :
  identities_unique descs → desc ∈ reachable descs →
  fragmented cxt desc = true → ¬ passes cxt (reachable descs) (uid desc).
Proof.
  intros Huniq Hin Hfrag (d & Hd & Hk & Hpass).
  rewrite (Huniq d desc Hd Hin Hk) in Hpass. congruence.
Qed.

(** A fragmented unit of a registry with unique identities is never
    cached while the registry is evaluated. *)
Lemma fragmented_not_cached (self : Calculator) (cxt : Context) descs st i desc :
  identities_unique descs → desc ∈ reachable descs →
  fragmented cxt desc = true →
  _cache (store_at self cxt descs i (cache_clear st)) !! uid desc = None.
Proof.
  intros Huniq Hin Hfrag.
  pose proof (fragmented_not_passes cxt _ _ Huniq Hin Hfrag) as Hnot.
  apply eq_None_not_Some. intros Hs.
  pose proof (_calculate_loop_growth self cxt (take i descs) (cache_clear st)) as [_ _ Hk].
  destruct (Hk _ Hs) as [Hempty | Hp].
  - simpl in Hempty. rewrite lookup_empty in Hempty. destruct Hempty; discriminate.
  - apply Hnot. eapply passes_mono; [apply reachable_take | exact Hp].
Qed.

(** C5: in a registry whose descriptor objects have unique identities, a
    registered unit that requires a single fragment, evaluated in a context
    whose fragment count is not 1, yields [Missing] carrying
    [MultipleFragments] and the stack made of that unit, as soon as the
    units before it have yielded their results, and its [calculate] is not
    invoked in the whole evaluation; the evaluation yields a result for
    every unit when no exception leaves it. *)
Theorem multiple_fragments_failure (self : Calculator) (cxt : Context) (st : Store) i desc :
  identities_unique (_descriptors self) →
  _descriptors self !! i = Some desc →
  require_connected desc = true → n_frags cxt ≠ 1 →
  ∃ st' ys e new,
    _calculate self cxt st = (st', ys, e) ∧
    (e = None → length ys = length (_descriptors self)) ∧
    (i ≤ length ys → ys !! i = Some (Missing MultipleFragments [uid desc])) ∧
    calls st' = new ++ calls st ∧ uid desc ∉ new.
Proof.
  intros Huniq Hi Hrc Hn.
  assert (Hfrag : fragmented cxt desc = true).
  { unfold fragmented. rewrite Hrc. simpl. apply negb_true_iff, Nat.eqb_neq, Hn. }
  pose proof (reachable_lookup _ _ _ Hi) as Hin.
  pose proof (fragmented_not_passes cxt _ _ Huniq Hin Hfrag) as Hnot.
  pose proof (_calculate_loop_growth self cxt (_descriptors self) (cache_clear st)) as Hg.
  pose proof (_calculate_loop_length self cxt (_descriptors self) (cache_clear st)) as Hlen.
  pose proof (_calculate_loop_lookup self cxt (_descriptors self) (cache_clear st) i desc Hi)
    as Hlook.
  unfold _calculate.
  destruct (_calculate_loop self cxt (_descriptors self) (cache_clear st))
    as [[st' ys] e] eqn:Hloop.
  simpl in Hg, Hlen, Hlook. destruct Hg as [_ (new & Hnew & Hall) _].
  exists st', ys, e, new. split; [reflexivity|].
  split; [intros ->; exact Hlen|]. split; [|split; [exact Hnew|]].
  - intros Hreach. destruct (Hlook Hreach) as (st1 & o & Hone & _ & Hy).
    rewrite (_calculate_one_miss _ _ _ _ _
               (fragmented_not_cached self cxt _ st i desc Huniq Hin Hfrag)) in Hone.
    cbv zeta in Hone. rewrite Hfrag in Hone. simplify_eq. simpl in Hy.
    rewrite Hy. simpl. rewrite get_stack_enter. reflexivity.
  - intros Hmem. rewrite Forall_forall in Hall. destruct (Hall _ Hmem) as [Hp _].
    exact (Hnot Hp).
Qed.

(** ** Memoization *)




(** C6, amended: a request that misses the cache pushes the descriptor and
    then checks the single-fragment precondition, before any dependency is
    resolved: when the precondition fails the request raises with the
    store as it was entered, so no dependency was pushed and no
    [calculate] was invoked; when it holds the dependencies are resolved in
    order, an absent one giving the placeholder without a request, and
    [calculate] is invoked on the values. *)
Theorem fragment_check_before_dependencies (self : Calculator) (cxt : Context) desc reset st :
  _cache st !! uid desc = None →
  get_stack cxt (enter cxt desc reset st) =
    (if reset then [] else get_stack cxt st) ++ [uid desc] ∧
  _cache (enter cxt desc reset st) = _cache st ∧
  calls (enter cxt desc reset st) = calls st ∧
  (fragmented cxt desc = true →
   _calculate_one self cxt desc reset st =
   (enter cxt desc reset st, Raise (MissingValueException MultipleFragments))) ∧
  (fragmented cxt desc = false →
   _calculate_one self cxt desc reset st =
   match resolve_deps self cxt (dependencies desc) (enter cxt desc reset st) with
   | (st2, Raise e) => (st2, Raise e)
   | (st2, Return args) => finish self cxt desc args st2
   end) ∧
  (∀ name deps st0,
     resolve_deps self cxt ((name, None) :: deps) st0 =
     match resolve_deps self cxt deps st0 with
     | (st2, Raise e) => (st2, Raise e)
     | (st2, Return args) => (st2, Return ((name, VNone) :: args))
     end).
Proof.
  intros Hmiss. split; [apply get_stack_enter|]. split; [apply cache_enter|].
  split; [destruct reset; reflexivity|].
  rewrite (_calculate_one_miss _ _ _ _ _ Hmiss). cbv zeta.
  split; [intros ->; reflexivity|]. split; [intros ->; reflexivity|].
  intros name deps st0. reflexivity.
Qed.

(** ** Independence of the incoming store *)

Lemma agree_enter (cxt : Context) desc reset st1 st2 :
  _cache st1 = _cache st2 →
  (reset = false → get_stack cxt st1 = get_stack cxt st2) →
  agree cxt (enter cxt desc reset st1) (enter cxt desc reset st2).
Proof.
  intros Hc Hs. split.
  - rewrite !cache_enter. exact Hc.
  - rewrite !get_stack_enter. destruct reset; [reflexivity|]. rewrite Hs; reflexivity.
Qed.

Lemma agree_finish (self : Calculator) (cxt : Context) desc args st1 st2 st1' st2' o1 o2 :
  agree cxt st1 st2 →
  finish self cxt desc args st1 = (st1', o1) →
  finish self cxt desc args st2 = (st2', o2) →
  o1 = o2 ∧ agree cxt st1' st2'.
Proof.
  intros [Hc Hs] H1 H2. unfold finish in *.
  destruct (calculate desc cxt args) as [r|e].
  2:{ simplify_eq. split; [reflexivity | split; assumption]. }
  destruct (if _debug self then _check_rtype desc r else None) as [e|].
  { simplify_eq. split; [reflexivity | split; assumption]. }
  simplify_eq. split; [reflexivity|]. split; simpl; [rewrite Hc; reflexivity | exact Hs].
Qed.

Lemma resolve_deps_agrees (self : Calculator) (cxt : Context) deps :
  deps_all (request_agrees self cxt) deps →
  ∀ st1 st2 st1' st2' o1 o2,
    agree cxt st1 st2 →
    resolve_deps self cxt deps st1 = (st1', o1) →
    resolve_deps self cxt deps st2 = (st2', o2) →
    o1 = o2 ∧ agree cxt st1' st2'.
Proof.
  induction deps as [|[name dep] deps IH]; intros Hall st1 st2 st1' st2' o1 o2 Hag H1 H2.
  - simplify_eq/=. auto.
  - apply deps_all_inv in Hall as [Hdep Hall].
    rewrite resolve_deps_cons in H1, H2.
    assert (Hhead : ∀ s1 s2 p1 p2,
      match dep with
      | Some dep => _calculate_one self cxt dep false st1
      | None => (st1, Return VNone) end = (s1, p1) →
      match dep with
      | Some dep => _calculate_one self cxt dep false st2
      | None => (st2, Return VNone) end = (s2, p2) →
      p1 = p2 ∧ agree cxt s1 s2).
    { intros s1 s2 p1 p2 E1 E2. destruct dep as [d|].
      - eapply Hdep; eauto.
      - simplify_eq. auto. }
    destruct (match dep with
              | Some dep => _calculate_one self cxt dep false st1
              | None => (st1, Return VNone) end) as [s1 p1].
    destruct (match dep with
              | Some dep => _calculate_one self cxt dep false st2
              | None => (st2, Return VNone) end) as [s2 p2].
    destruct (Hhead s1 s2 p1 p2 eq_refl eq_refl) as [<- Hag1].
    destruct p1 as [v|e]; [|simplify_eq; auto].
    destruct (resolve_deps self cxt deps s1) as [t1 q1] eqn:T1.
    destruct (resolve_deps self cxt deps s2) as [t2 q2] eqn:T2.
    destruct (IH Hall _ _ _ _ _ _ Hag1 T1 T2) as [<- Hag2].
    destruct q1; simplify_eq; auto.
Qed.

(** A request that misses the cache, started in stores that agree once
    the descriptor is entered. *)
Lemma miss_agrees (self : Calculator) (cxt : Context) desc reset st1 st2 st1' st2' o1 o2 :
  deps_all (request_agrees self cxt) (dependencies desc) →
  _cache st1 !! uid desc = None →
  _cache st2 !! uid desc = None →
  agree cxt (enter cxt desc reset st1) (enter cxt desc reset st2) →
  _calculate_one self cxt desc reset st1 = (st1', o1) →
  _calculate_one self cxt desc reset st2 = (st2', o2) →
  o1 = o2 ∧ agree cxt st1' st2'.
Proof.
  intros Hall M1 M2 Hag H1 H2.
  rewrite (_calculate_one_miss _ _ _ _ _ M1) in H1.
  rewrite (_calculate_one_miss _ _ _ _ _ M2) in H2. cbv zeta in *.
  destruct (fragmented cxt desc); [simplify_eq; auto|].
  destruct (resolve_deps self cxt (dependencies desc) (enter cxt desc reset st1))
    as [t1 q1] eqn:T1.
  destruct (resolve_deps self cxt (dependencies desc) (enter cxt desc reset st2))
    as [t2 q2] eqn:T2.
  destruct (resolve_deps_agrees _ _ _ Hall _ _ _ _ _ _ Hag T1 T2) as [<- Hag'].
  destruct q1 as [args|e]; [|simplify_eq; auto].
  eapply agree_finish; eauto.
Qed.

Lemma _calculate_one_agrees (self : Calculator) (cxt : Context) desc :
  request_agrees self cxt desc.
Proof.
  induction desc as [desc IH] using Descriptor_deps_ind.
  intros st1 st2 st1' st2' o1 o2 Hag H1 H2.
  destruct (_cache st1 !! uid desc) as [r|] eqn:Hcache.
  - assert (Hcache2 : _cache st2 !! uid desc = Some r) by (rewrite <- (proj1 Hag); exact Hcache).
    rewrite (_calculate_one_hit _ _ _ _ _ _ Hcache) in H1.
    rewrite (_calculate_one_hit _ _ _ _ _ _ Hcache2) in H2. simplify_eq. auto.
  - assert (Hcache2 : _cache st2 !! uid desc = None) by (rewrite <- (proj1 Hag); exact Hcache).
    apply (miss_agrees self cxt desc false st1 st2 st1' st2' o1 o2 IH Hcache Hcache2);
      [|exact H1|exact H2].
    apply agree_enter; [exact (proj1 Hag) | intros _; exact (proj2 Hag)].
Qed.

(** A top-level request reads the cache only: the stack is reset before it
    is read, and the handlers read the stack after a request that raised,
    hence after a reset. *)
Lemma _calculate_step_agrees (self : Calculator) (cxt : Context) desc st1 st2 :
  _cache st1 = _cache st2 →
  (_calculate_step self cxt desc st1).2 = (_calculate_step self cxt desc st2).2 ∧
  _cache (_calculate_step self cxt desc st1).1 = _cache (_calculate_step self cxt desc st2).1.
Proof.
  intros Hc.
  destruct (_calculate_one self cxt desc true st1) as [s1 o1] eqn:H1.
  destruct (_calculate_one self cxt desc true st2) as [s2 o2] eqn:H2.
  rewrite (_calculate_step_eq _ _ _ _ _ _ H1), (_calculate_step_eq _ _ _ _ _ _ H2). simpl.
  destruct (_cache st1 !! uid desc) as [r|] eqn:Hcache.
  - assert (Hcache2 : _cache st2 !! uid desc = Some r) by (rewrite <- Hc; exact Hcache).
    rewrite (_calculate_one_hit _ _ _ _ _ _ Hcache) in H1.
    rewrite (_calculate_one_hit _ _ _ _ _ _ Hcache2) in H2. simplify_eq. auto.
  - assert (Hcache2 : _cache st2 !! uid desc = None) by (rewrite <- Hc; exact Hcache).
    assert (Hen : agree cxt (enter cxt desc true st1) (enter cxt desc true st2))
      by (apply agree_enter; [exact Hc | discriminate]).
    destruct (miss_agrees self cxt desc true _ _ _ _ _ _
                (λ name dep _, _calculate_one_agrees self cxt dep)
                Hcache Hcache2 Hen H1 H2) as [<- [Hc' Hs']].
    split; [|exact Hc'].
    assert (Hr : result_of cxt s1 o1 = result_of cxt s2 o1).
    { destruct o1 as [r|e]; [reflexivity|]. simpl. rewrite Hs'. reflexivity. }
    rewrite Hr. reflexivity.
Qed.

Lemma _calculate_loop_agrees (self : Calculator) (cxt : Context) descs st1 st2 :
  _cache st1 = _cache st2 →
  (_calculate_loop self cxt descs st1).1.2 = (_calculate_loop self cxt descs st2).1.2 ∧
  (_calculate_loop self cxt descs st1).2 = (_calculate_loop self cxt descs st2).2.
Proof.
  revert st1 st2. induction descs as [|desc descs IH]; intros st1 st2 Hc; [auto|].
  destruct (_calculate_step_agrees self cxt desc st1 st2 Hc) as [Hy Hc']. simpl.
  destruct (_calculate_step self cxt desc st1) as [s1 y1].
  destruct (_calculate_step self cxt desc st2) as [s2 y2]. simpl in *. subst y2.
  destruct y1 as [y|e]; [|auto].
  destruct (IH s1 s2 Hc') as [Hys He].
  destruct (_calculate_loop self cxt descs s1) as [[t1 ys1] e1].
  destruct (_calculate_loop self cxt descs s2) as [[t2 ys2] e2].
  simpl in *. subst. auto.
Qed.

Lemma _calculate_agrees (self : Calculator) (cxt : Context) st1 st2 :
  (_calculate self cxt st1).1.2 = (_calculate self cxt st2).1.2 ∧
  (_calculate self cxt st1).2 = (_calculate self cxt st2).2.
Proof.
  unfold _calculate.
  exact (_calculate_loop_agrees self cxt (_descriptors self)
           (cache_clear st1) (cache_clear st2) eq_refl).
Qed.

Lemma __call___agrees from_calculator (self : Calculator) (mol : Mol) id st1 st2 :
  (__call__ from_calculator self mol id st1).2 = (__call__ from_calculator self mol id st2).2.
Proof.
  unfold __call__. destruct (from_calculator self mol id) as [cxt|e]; [|reflexivity].
  destruct (_calculate_agrees self cxt st1 st2) as (Hys & He).
  destruct (_calculate self cxt st1) as [[s1 ys1] e1].
  destruct (_calculate self cxt st2) as [[s2 ys2] e2].
  simpl in *. subst. destruct e2; reflexivity.
Qed.

(** C9: the first request of an evaluation finds the cache empty; what
    [_calculate] yields for a context is the same whatever store, hence
    whatever cache, the evaluation of earlier structures left; and in
    [_serial] the results of every structure are those [__call__] gives
    for that structure alone, from any store. *)
Theorem cache_is_per_structure from_calculator (self : Calculator) :
  (∀ (cxt : Context) st,
     _cache (store_at self cxt (_descriptors self) 0 (cache_clear st)) = ∅) ∧
  (∀ (cxt : Context) st1 st2,
     (_calculate self cxt st1).1.2 = (_calculate self cxt st2).1.2 ∧
     (_calculate self cxt st1).2 = (_calculate self cxt st2).2) ∧
  (∀ (mols : list Mol) id st i m rs,
     mols !! i = Some m →
     (_serial from_calculator self mols id st).1.2 !! i = Some rs →
     ∀ st0, (__call__ from_calculator self m id st0).2 = Return rs).
Proof.
  split; [|split].
  - intros cxt st. reflexivity.
  - intros cxt st1 st2. exact (_calculate_agrees self cxt st1 st2).
  - intros mols id. induction mols as [|m0 mols IH]; intros st i m rs Hi Hrs st0;
      [discriminate|].
    simpl in Hrs.
    destruct (__call__ from_calculator self m0 id st) as [s1 [r|e]] eqn:Hcall;
      [|destruct i; discriminate].
    destruct (_serial from_calculator self mols id s1) as [[s2 rest] e2] eqn:Hrest.
    destruct i as [|i]; simpl in *.
    + simplify_eq. rewrite (__call___agrees from_calculator self m id st0 st), Hcall.
      reflexivity.
    + eapply (IH s1 i); [exact Hi|]. rewrite Hrest. exact Hrs.
Qed.

(** C8: the results of [_calculate] and the column headers of [pandas] are
    aligned with the registered descriptors: there is one header per
    descriptor, and one result per descriptor unless an exception left the
    evaluation, which then holds the results of the descriptors before the
    one whose request raised it; at every index the header is the name of
    the descriptor registered at that index and the result, when there is
    one, is the result of its request, whatever the dependencies of the
    descriptors are; the registry keeps the descriptors in the order of
    their registration: a registration appends, a check-only one of a
    dependency adds nothing. *)
Theorem results_follow_registration_order (self : Calculator) (cxt : Context) (st : Store) :
  (∃ st' ys e,
     _calculate self cxt st = (st', ys, e) ∧
     match e with
     | None => length ys = length (_descriptors self)
     | Some err => is_Exception err = false ∧ length ys < length (_descriptors self)
     end ∧
     length (pandas_columns self) = length (_descriptors self) ∧
     ∀ i desc, _descriptors self !! i = Some desc →
       pandas_columns self !! i = Some (name desc) ∧
       (i < length ys →
        ∃ st1 o,
          _calculate_one self cxt desc true
            (store_at self cxt (_descriptors self) i (cache_clear st)) = (st1, o) ∧
          ys !! i = Some (result_of cxt st1 o))) ∧
  (∀ desc ignore_3D self',
     _register_one desc false ignore_3D self = (self', Return tt) →
     _descriptors self' =
     _descriptors self ++ (if ignore_3D && require_3D desc then [] else [desc])) ∧
  (∀ (x : DescriptorLike) ignore_3D self' o,
     register x ignore_3D self = (self', o) →
     _descriptors self `prefix_of` _descriptors self').
Proof.
  split; [|split].
  - pose proof (_calculate_loop_length self cxt (_descriptors self) (cache_clear st)) as Hlen.
    pose proof (_calculate_loop_escape self cxt (_descriptors self) (cache_clear st)) as Hesc.
    pose proof (_calculate_loop_lookup self cxt (_descriptors self) (cache_clear st)) as Hlook.
    unfold _calculate.
    destruct (_calculate_loop self cxt (_descriptors self) (cache_clear st))
      as [[st' ys] e] eqn:Hloop.
    simpl in Hlen, Hesc, Hlook.
    exists st', ys, e. split; [reflexivity|]. split; [|split].
    + destruct e as [err|]; [|exact Hlen].
      split; [exact (proj1 (Hesc err eq_refl)) | exact Hlen].
    + unfold pandas_columns. apply length_fmap.
    + intros i desc Hi. split.
      * unfold pandas_columns. rewrite list_lookup_fmap, Hi. reflexivity.
      * intros Hlt. destruct (Hlook i desc Hi) as (st1 & o & Hone & _ & Hy); [lia|].
        exists st1, o. split; [exact Hone|].
        destruct (escaping o); [destruct Hy as (_ & Hl & _); lia | exact Hy].
  - intros desc ig self' Hone. rewrite _register_one_spec in Hone.
    destruct (ig && require_3D desc); [simplify_eq; rewrite app_nil_r; reflexivity|].
    cbv zeta in Hone.
    destruct (fold_all_descriptors (closure desc) self) as (Hd & _ & _).
    destruct (_name_dict (fold_all (closure desc) self) !! name desc); simplify_eq.
    simpl. rewrite Hd. reflexivity.
  - intros x ig self' o Hreg.
    eapply (register_kept false (λ s, _descriptors self `prefix_of` _descriptors s));
      [apply prefix_kept|reflexivity|exact Hreg|left; reflexivity].
Qed.

(** C10, amended: a request that misses the cache attaches the context to
    the descriptor, and when the iteration of a top-level descriptor is
    over, whatever its outcome, that descriptor has no [_context]
    attribute. The [finally] clause removes the reference of the top-level
    descriptor only: every other descriptor has after the iteration the
    [_context] attribute the request left, so a descriptor that was
    attached as a dependency stays attached, also when it is a registered
    one whose result has been yielded. *)
Theorem context_removed_after_iteration (self : Calculator) (cxt : Context) :
  (∀ desc st st1 o,
     _cache st !! uid desc = None →
     _calculate_one self cxt desc true st = (st1, o) →
     _context st1 !! uid desc = Some cxt) ∧
  (∀ desc st, _context (_calculate_step self cxt desc st).1 !! uid desc = None) ∧
  (∀ desc st k, k ≠ uid desc →
     _context (_calculate_step self cxt desc st).1 !! k =
     _context (_calculate_one self cxt desc true st).1 !! k) ∧
  (∀ desc st k, k ≠ uid desc → _context st !! k = Some cxt →
     _context (_calculate_step self cxt desc st).1 !! k = Some cxt) ∧
  (∀ st i desc,
     _descriptors self !! i = Some desc →
     i ≤ length (_calculate self cxt st).1.2 →
     _context (store_at self cxt (_descriptors self) (S i) (cache_clear st)) !! uid desc
     = None).
Proof.
  split; [|split; [|split; [|split]]].
  - intros desc st st1 o Hmiss Hone.
    rewrite (_calculate_one_miss _ _ _ _ _ Hmiss) in Hone. cbv zeta in Hone.
    pose proof (context_enter cxt desc true st) as Hat.
    destruct (fragmented cxt desc); [simplify_eq; exact Hat|].
    destruct (resolve_deps self cxt (dependencies desc) (enter cxt desc true st))
      as [st2 [args|e]] eqn:Hres.
    + pose proof (frame_context _ _ _ _ (resolve_deps_framed _ _ _ _ _ _ Hres) _ Hat) as Hat2.
      unfold finish in Hone.
      destruct (calculate desc cxt args) as [r|e]; [|simplify_eq; exact Hat2].
      destruct (if _debug self then _check_rtype desc r else None);
        simplify_eq; exact Hat2.
    + simplify_eq.
      exact (frame_context _ _ _ _ (resolve_deps_framed _ _ _ _ _ _ Hres) _ Hat).
  - intros desc st. unfold _calculate_step.
    destruct (_calculate_one self cxt desc true st) as [st1 o]. simpl.
    apply lookup_delete_eq.
  - intros desc st k Hk. unfold _calculate_step.
    destruct (_calculate_one self cxt desc true st) as [st1 o]. simpl.
    apply lookup_delete_ne. congruence.
  - intros desc st k Hk Hat. unfold _calculate_step.
    destruct (_calculate_one self cxt desc true st) as [st1 o] eqn:Hone. simpl.
    rewrite lookup_delete_ne by congruence.
    destruct (_calculate_one_framed self cxt desc _ _ _ _ Hone) as (Hfr & _ & _).
    exact (frame_context _ _ _ _ Hfr _ Hat).
  - intros st i desc Hi Hreach.
    destruct (_calculate_loop_lookup self cxt _ (cache_clear st) i desc Hi Hreach)
      as (st1 & o & _ & -> & _).
    simpl. apply lookup_delete_eq.
Qed.

(** * Further properties of registration *)

Lemma lookup_ok_empty debug : lookup_ok (@empty_calculator Mol debug).
Proof.
  intros n d. simpl. rewrite lookup_empty. split; [discriminate|].
  intros [H _]. inversion H.
Qed.

Lemma lookup_ok_kept : @kept Mol false lookup_ok.
Proof.
  intros desc ig self self' o HI Hone _. rewrite _register_one_spec in Hone.
  destruct (ig && require_3D desc); [simplify_eq; exact HI|]. cbv zeta in Hone.
  destruct (fold_all_descriptors (closure desc) self) as (Hd & Hn & _).
  rewrite Hn in Hone.
  destruct (_name_dict self !! name desc) as [old|] eqn:Hfree; simplify_eq.
  - intros n d. rewrite Hn, Hd. apply HI.
  - intros n d. simpl. rewrite Hn, Hd, elem_of_app, list_elem_of_singleton.
    destruct (decide (name desc = n)) as [<-|Hne].
    + rewrite lookup_insert_eq. split.
      * intros [= <-]. auto.
      * intros [[Hin | ->] Hname]; [|reflexivity].
        assert (Hsome : _name_dict self !! name desc = Some d) by (apply HI; auto).
        congruence.
    + rewrite lookup_insert_ne by exact Hne. rewrite (HI n d). split.
      * intros [Hin Hname]. auto.
      * intros [[Hin | ->] Hname]; [auto | congruence].
Qed.

Lemma registrations_lookup_ok calls debug (self : Calculator) o :
  registrations calls (empty_calculator debug) = (self, o) → lookup_ok self.
Proof.
  intros Hreg.
  eapply (registrations_kept false lookup_ok);
    [apply lookup_ok_kept| |exact Hreg|left; reflexivity].
  apply lookup_ok_empty.
Qed.

(** X1: in a calculator built by registrations, a lookup by the name of a
    registered descriptor returns that descriptor, a lookup by any other
    key fails, and whatever a lookup returns is a registered descriptor of
    that name. *)
Theorem getitem_registered calls debug (self : Calculator) o :
  registrations calls (empty_calculator debug) = (self, o) →
  (∀ desc, desc ∈ _descriptors self → __getitem__ self (name desc) = Some desc) ∧
  (∀ key, key ∉ name <$> _descriptors self → __getitem__ self key = None) ∧
  (∀ key desc, __getitem__ self key = Some desc →
               desc ∈ _descriptors self ∧ name desc = key).
Proof.
  intros Hreg. pose proof (registrations_lookup_ok _ _ _ _ Hreg) as Hok.
  unfold __getitem__. split; [|split].
  - intros desc Hin. apply Hok. auto.
  - intros key Hkey. apply eq_None_not_Some. intros [d Hd].
    apply Hok in Hd as [Hin <-]. apply Hkey, list_elem_of_fmap. eauto.
  - intros key desc Hd. apply Hok, Hd.
Qed.

(** X2: after any sequence of registrations, also one that ended with an
    error, no two registered descriptors have the same name, and the name
    lookup has as many entries as there are registered descriptors. *)
Theorem registered_names_unique calls debug (self : Calculator) o :
  registrations calls (empty_calculator debug) = (self, o) →
  NoDup (name <$> _descriptors self) ∧
  size (_name_dict self) = __len__ self.
Proof.
  intros Hreg. destruct (registrations_names_ok _ _ _ _ Hreg) as [Hnd Hdom].
  split; [exact Hnd|].
  rewrite <- size_dom.
  assert (Heq : dom (_name_dict self) = list_to_set (name <$> _descriptors self)).
  { apply set_eq. intros n. rewrite elem_of_dom, elem_of_list_to_set. apply Hdom. }
  rewrite Heq, size_list_to_set by exact Hnd. unfold __len__. apply length_fmap.
Qed.

(** X3: when a direct registration raises, the exception is
    [DuplicatedDescriptorName] for the registered descriptor of the same
    name, the unit was not skipped, and the output sequence and the name
    lookup are as before, but the requirements of the unit and of its
    dependencies have already been folded into the aggregates. *)
Theorem register_one_failure calls debug (self : Calculator) o0 desc ignore_3D self' e :
  registrations calls (empty_calculator debug) = (self, o0) →
  _register_one desc false ignore_3D self = (self', Raise e) →
  ∃ old : Descriptor,
    e = DuplicatedDescriptorName (uid desc) (uid old) ∧
    old ∈ _descriptors self ∧ name old = name desc ∧
    ignore_3D && require_3D desc = false ∧
    _descriptors self' = _descriptors self ∧
    _name_dict self' = _name_dict self ∧
    _require_3D self' = _require_3D self || existsb require_3D (closure desc) ∧
    _explicit_hydrogens self' =
      _explicit_hydrogens self ∪ list_to_set (explicit_hydrogens <$> closure desc) ∧
    _kekulizes self' = _kekulizes self ∪ list_to_set (kekulize <$> closure desc).
Proof.
  intros Hreg Hone. pose proof (registrations_lookup_ok _ _ _ _ Hreg) as Hok.
  rewrite _register_one_spec in Hone.
  destruct (ignore_3D && require_3D desc); [discriminate|]. cbv zeta in Hone.
  destruct (fold_all_descriptors (closure desc) self) as (Hd & Hn & _).
  rewrite Hn in Hone.
  destruct (_name_dict self !! name desc) as [old|] eqn:Hold; [|discriminate].
  simplify_eq. apply Hok in Hold as [Hin Hname].
  exists old. rewrite fold_all_require_3D, fold_all_explicit_hydrogens, fold_all_kekulizes.
  repeat split; assumption.
Qed.

(** ** [register] flattens its argument *)

Lemma register_events_app (xs ys : list (Descriptor + exn)) ignore_3D (self : Calculator) :
  register_events (xs ++ ys) ignore_3D self =
  match register_events xs ignore_3D self with
  | (self, Raise e) => (self, Raise e)
  | (self, Return _) => register_events ys ignore_3D self
  end.
Proof.
  revert self. induction xs as [|[d|e] xs IH]; intros self; simpl; [reflexivity| |reflexivity].
  destruct (_register_one d false ignore_3D self) as [s1 [u|e]]; [apply IH | reflexivity].
Qed.

Lemma register_preset_events preset ignore_3D (self : Calculator) :
  register_preset preset ignore_3D self = register_events (inl <$> preset) ignore_3D self.
Proof.
  revert self. induction preset as [|d preset IH]; intros self; simpl; [reflexivity|].
  destruct (_register_one d false ignore_3D self) as [s1 [u|e]]; [apply IH | reflexivity].
Qed.

Lemma flatten_events_eq (x : @DescriptorLike Mol) :
  flatten_events x =
  match x with
  | Instance d => [inl d]
  | Class preset => inl <$> preset
  | Module (Raise e) => [inr e]
  | Module (Return members) => flatten_events_each members
  | Iterable items => flatten_events_each items
  | Text EmptyString => []
  | Text (String _ _) => [inr RecursionError]
  | Other => [inr ValueError]
  end.
Proof. destruct x as [| |[]| | |]; reflexivity. Qed.

Lemma register_each_events (items : list (@DescriptorLike Mol)) ignore_3D :
  Forall (λ x : DescriptorLike, ∀ self : Calculator,
            register x ignore_3D self =
            register_events (flatten_events x) ignore_3D self) items →
  ∀ self : Calculator,
    register_each ignore_3D items self =
    register_events (flatten_events_each items) ignore_3D self.
Proof.
  induction 1 as [|x items Hx _ IH]; intros self; [reflexivity|].
  change (flatten_events_each (x :: items))
    with (flatten_events x ++ flatten_events_each items).
  rewrite register_events_app, <- Hx. simpl.
  destruct (register x ignore_3D self) as [s1 [u|e]]; [apply IH | reflexivity].
Qed.

Lemma register_events_eq (x : DescriptorLike) ignore_3D (self : Calculator) :
  register x ignore_3D self = register_events (flatten_events x) ignore_3D self.
Proof.
  revert self.
  induction x as [desc|preset|e|members IH|items IH|s|] using DescriptorLike_items_ind;
    intros self; rewrite register_eq, flatten_events_eq.
  - simpl. destruct (_register_one desc false ignore_3D self) as [s1 [[]|e]]; reflexivity.
  - apply register_preset_events.
  - reflexivity.
  - apply register_each_events, IH.
  - apply register_each_events, IH.
  - destruct s; reflexivity.
  - reflexivity.
Qed.

(** X4: [register] on any nesting of iterables, modules, classes,
    instances, strings and other objects does what the flat sequence of
    the objects it reaches does, taken from left to right: [_register_one]
    on every descriptor instance, up to the first call that raises or the
    first object at which [register] raises without a call, which is a
    module whose scan raises, with the exception of the scan, a string
    that is not empty, with [RecursionError], or an object that is neither
    iterable nor a descriptor, with [ValueError]. *)
Theorem register_flattens (x : DescriptorLike) ignore_3D (self : Calculator) :
  register x ignore_3D self = register_events (flatten_events x) ignore_3D self.
Proof. exact (register_events_eq x ignore_3D self). Qed.

(** The descriptors a flat sequence adds to the output sequence when every
    call returns: those the [ignore_3D] guard lets through. *)
Lemma register_events_descriptors (xs : list (Descriptor + exn)) ignore_3D
    (self self' : Calculator) o :
  register_events xs ignore_3D self = (self', o) →
  ∃ k, _descriptors self' =
       _descriptors self ++
       filter (λ d, ignore_3D && require_3D d = false)
         (omap id (take k ((λ ev, match ev with inl d => Some d | inr _ => None end) <$> xs))) ∧
       (o = Return tt →
        k = length xs ∧
        None ∉ (λ ev, match ev with inl d => Some d | inr _ => None end) <$> xs).
Proof.
  revert self. induction xs as [|[d|e] xs IH]; intros self Hreg; simpl in Hreg.
  - simplify_eq. exists 0. simpl. rewrite app_nil_r. split; [reflexivity|].
    intros _. split; [reflexivity | apply not_elem_of_nil].
  - rewrite _register_one_spec in Hreg.
    destruct (fold_all_descriptors (closure d) self) as (Hd & _ & _).
    destruct (ignore_3D && require_3D d) eqn:Hskip.
    + destruct (IH _ Hreg) as (k & Hk & Hret). exists (S k). simpl.
      rewrite filter_cons, decide_False by (rewrite Hskip; discriminate).
      split; [exact Hk|]. intros Ho. destruct (Hret Ho) as [-> Hnone].
      split; [reflexivity|]. intros [Heq|Hin]%elem_of_cons; [discriminate | auto].
    + cbv zeta in Hreg.
      destruct (_name_dict (fold_all (closure d) self) !! name d).
      * simplify_eq. exists 0. simpl. rewrite app_nil_r. split; [exact Hd | discriminate].
      * destruct (IH _ Hreg) as (k & Hk & Hret). exists (S k). simpl.
        rewrite filter_cons, decide_True by exact Hskip.
        split.
        -- rewrite Hk. simpl. rewrite Hd, <- app_assoc. reflexivity.
        -- intros Ho. destruct (Hret Ho) as [-> Hnone].
           split; [reflexivity|]. intros [Heq|Hin]%elem_of_cons; [discriminate | auto].
  - simplify_eq. exists 0. simpl. rewrite app_nil_r. split; [reflexivity | discriminate].
Qed.

Lemma register_descriptors (x : DescriptorLike) ignore_3D (self self' : Calculator) :
  register x ignore_3D self = (self', Return tt) →
  (None ∉ flatten x) ∧
  _descriptors self' =
  _descriptors self ++
  filter (λ d, ignore_3D && require_3D d = false) (omap id (flatten x)).
Proof.
  rewrite register_events_eq. intros Hreg.
  destruct (register_events_descriptors _ _ _ _ _ Hreg) as (k & Hk & Hret).
  destruct (Hret eq_refl) as [-> Hnone]. split; [exact Hnone|].
  rewrite take_ge in Hk by (rewrite length_fmap; lia). exact Hk.
Qed.

(** X5: when [register] returns, its argument held descriptors only, and
    the output sequence has grown by those the [ignore_3D] guard lets
    through, in the order in which they occur in the argument. *)
Theorem register_appends_in_order (x : DescriptorLike) ignore_3D (self self' : Calculator) :
  register x ignore_3D self = (self', Return tt) →
  (None ∉ flatten x) ∧
  _descriptors self' =
  _descriptors self ++
  filter (λ d, ignore_3D && require_3D d = false) (omap id (flatten x)).
Proof. exact (register_descriptors x ignore_3D self self'). Qed.

(** X6: whatever [register] with [ignore_3D] does, and also when it
    raises, no descriptor it adds to the output sequence requires 3D. *)
Theorem register_ignore_3D_adds_no_3D (x : DescriptorLike) (self self' : Calculator) o :
  register x true self = (self', o) →
  ∃ added, _descriptors self' = _descriptors self ++ added ∧
           Forall (λ d, require_3D d = false) added.
Proof.
  rewrite register_events_eq. intros Hreg.
  destruct (register_events_descriptors _ _ _ _ _ Hreg) as (k & Hk & _).
  eexists. split; [exact Hk|].
  apply Forall_forall. intros d [Hd _]%list_elem_of_filter. exact Hd.
Qed.

(** X7: when [register] raises, the exception is either that of an object
    of its argument at which [register] raises without calling
    [_register_one] (the exception of the scan of a module, [RecursionError]
    at a string that is not empty, [ValueError] at an object that is
    neither iterable nor a descriptor), or [DuplicatedDescriptorName] for a
    descriptor of its argument that the [ignore_3D] guard did not skip. *)
Theorem register_errors (x : DescriptorLike) ignore_3D (self self' : Calculator) e :
  register x ignore_3D self = (self', Raise e) →
  (inr e ∈ flatten_events x) ∨
  (∃ (d old : Descriptor),
     e = DuplicatedDescriptorName (uid d) (uid old) ∧ inl d ∈ flatten_events x ∧
     ignore_3D && require_3D d = false).
Proof.
  rewrite register_events_eq. generalize (flatten_events x). intros xs. revert self.
  induction xs as [|[d|e0] xs IH]; intros self Hreg; simpl in Hreg; [discriminate| |].
  - destruct (_register_one d false ignore_3D self) as [s1 [u|e1]] eqn:Hone.
    + destruct (IH _ Hreg) as [Hin | (d' & old & -> & Hin & Hrest)].
      * left. right. exact Hin.
      * right. exists d', old. split; [reflexivity|]. split; [right; exact Hin | exact Hrest].
    + simplify_eq. right. rewrite _register_one_spec in Hone.
      destruct (ignore_3D && require_3D d) eqn:Hskip; [discriminate|]. cbv zeta in Hone.
      destruct (_name_dict (fold_all (closure d) self) !! name d) as [old|] eqn:Hold;
        [|discriminate].
      simplify_eq. exists d, old. split; [reflexivity|]. split; [left | exact Hskip].
  - simplify_eq. left. left.
Qed.

(** ** The [descriptors] property and pickling *)

Lemma debug_kept b : @kept Mol false (λ self, _debug self = b).
Proof.
  intros desc ig self self' o HI Hone _. rewrite _register_one_spec in Hone.
  destruct (ig && require_3D desc); [injection Hone as <- <-; exact HI|].
  cbv zeta in Hone.
  destruct (fold_all_descriptors (closure desc) self) as (_ & _ & Hdbg).
  destruct (_name_dict (fold_all (closure desc) self) !! name desc);
    injection Hone as <- <-; simpl; rewrite Hdbg; exact HI.
Qed.

Lemma filter_not_skipped (ds : list Descriptor) :
  filter (λ d, false && require_3D d = false) ds = ds.
Proof.
  induction ds as [|d ds IH]; [reflexivity|].
  rewrite filter_cons, decide_True by reflexivity. rewrite IH. reflexivity.
Qed.

(** X8: assigning to [descriptors] forgets what the calculator held,
    whatever state an earlier registration left it in: when the assignment
    returns, the output sequence is exactly the descriptors of the new
    value, in order, the aggregates describe the units reachable from
    them and nothing else, the names are unique, and [_debug] is as
    before. *)
Theorem descriptors_set_replaces (descs : DescriptorLike) (self self' : Calculator) :
  descriptors_set descs self = (self', Return tt) →
  _descriptors self' = omap id (flatten descs) ∧
  _require_3D self' = existsb require_3D (reachable (_descriptors self')) ∧
  _explicit_hydrogens self' =
    list_to_set (explicit_hydrogens <$> reachable (_descriptors self')) ∧
  _kekulizes self' = list_to_set (kekulize <$> reachable (_descriptors self')) ∧
  NoDup (name <$> _descriptors self') ∧
  _debug self' = _debug self.
Proof.
  unfold descriptors_set. intros Hreg.
  change (descriptors_del self) with (@empty_calculator Mol (_debug self)) in Hreg.
  destruct (register_descriptors _ _ _ _ Hreg) as [_ Hdescs].
  simpl in Hdescs. rewrite filter_not_skipped in Hdescs.
  split; [exact Hdescs|].
  assert (Hagg : aggregates_ok self').
  { eapply (register_kept true aggregates_ok);
      [apply aggregates_ok_kept|apply aggregates_ok_empty|exact Hreg|right; reflexivity]. }
  assert (Hnames : names_ok self').
  { eapply (register_kept false names_ok);
      [apply names_ok_kept|apply names_ok_empty|exact Hreg|left; reflexivity]. }
  destruct Hagg as (H3 & Hh & Hk). destruct Hnames as [Hnd _].
  repeat (split; [assumption|]).
  apply (register_kept false (λ s, _debug s = _debug self) descs false
           (empty_calculator (_debug self)) self' (Return tt)
           (debug_kept _) eq_refl Hreg).
  left; reflexivity.
Qed.

Lemma name_dict_of_snoc (ds : list Descriptor) d :
  name_dict_of (ds ++ [d]) = <[name d := d]> (name_dict_of ds).
Proof. unfold name_dict_of. rewrite foldl_snoc. reflexivity. Qed.

Lemma name_dict_of_lookup (ds : list Descriptor) n d :
  NoDup (name <$> ds) →
  name_dict_of ds !! n = Some d ↔ d ∈ ds ∧ name d = n.
Proof.
  induction ds as [|d0 ds IH] using rev_ind; intros Hnd.
  - unfold name_dict_of. simpl. rewrite lookup_empty. split; [discriminate|].
    intros [H _]. inversion H.
  - rewrite fmap_app in Hnd. apply NoDup_app in Hnd as (Hnd & Hfresh & _).
    rewrite name_dict_of_snoc, elem_of_app, list_elem_of_singleton.
    destruct (decide (name d0 = n)) as [<-|Hne].
    + rewrite lookup_insert_eq. split.
      * intros [= <-]. auto.
      * intros [[Hin | ->] Hname]; [|reflexivity].
        exfalso. apply (Hfresh (name d0)); [|left].
        apply list_elem_of_fmap. eauto.
    + rewrite lookup_insert_ne by exact Hne. rewrite (IH Hnd). split.
      * intros [Hin Hname]. auto.
      * intros [[Hin | ->] Hname]; [auto | congruence].
Qed.

(** X9: pickling a calculator built by registrations and unpickling the
    result gives back its descriptors, its name lookup and its three
    aggregates; the [_debug] flag is not pickled and comes back false. *)
Theorem pickle_round_trip calls debug (self : Calculator) o :
  registrations calls (empty_calculator debug) = (self, o) →
  unpickle (__reduce_ex__ self) =
  mkCalculator (_descriptors self) (_name_dict self) (_explicit_hydrogens self)
               (_kekulizes self) (_require_3D self) false.
Proof.
  intros Hreg. destruct (registrations_names_ok _ _ _ _ Hreg) as [Hnd _].
  pose proof (registrations_lookup_ok _ _ _ _ Hreg) as Hok.
  unfold unpickle, __setstate__, __reduce_ex__. simpl. f_equal.
  apply map_eq. intros n. apply option_eq. intros d.
  rewrite (name_dict_of_lookup _ _ _ Hnd). symmetry. apply Hok.
Qed.

(** * Further properties of evaluation *)

Lemma __call___outcome from_calculator (self : Calculator) (mol : Mol) id (st : Store) :
  match (__call__ from_calculator self mol id st).2 with
  | Return ys => length ys = __len__ self
  | Raise err => from_calculator self mol id = Raise err ∨ is_Exception err = false
  end.
Proof.
  unfold __call__. destruct (from_calculator self mol id) as [cxt|e]; [|left; reflexivity].
  pose proof (_calculate_loop_length self cxt (_descriptors self) (cache_clear st)) as Hlen.
  pose proof (_calculate_loop_escape self cxt (_descriptors self) (cache_clear st)) as Hesc.
  unfold _calculate.
  destruct (_calculate_loop self cxt (_descriptors self) (cache_clear st)) as [[st' ys] [err|]];
    simpl in *; [right; exact (proj1 (Hesc err eq_refl)) | exact Hlen].
Qed.

(** X10: [__call__] raises the exception of [from_calculator], with the
    store untouched, when the context cannot be built; otherwise it returns
    the results of [_calculate], as many as the calculator has descriptors,
    unless an exception left [_calculate]: then it raises that exception,
    which is not an instance of [Exception] and was raised by the request
    of the descriptor after the last that yielded. *)
Theorem call_returns_len from_calculator (self : Calculator) (mol : Mol) id (st : Store) :
  match from_calculator self mol id with
  | Raise e => __call__ from_calculator self mol id st = (st, Raise e)
  | Return cxt =>
      match (_calculate self cxt st).2 with
      | None =>
          ∃ st' ys, __call__ from_calculator self mol id st = (st', Return ys) ∧
                    length ys = __len__ self ∧
                    (_calculate self cxt st).1.2 = ys
      | Some err =>
          is_Exception err = false ∧
          __call__ from_calculator self mol id st = ((_calculate self cxt st).1.1, Raise err) ∧
          ∃ desc st1,
            _descriptors self !! length (_calculate self cxt st).1.2 = Some desc ∧
            _calculate_one self cxt desc true
              (store_at self cxt (_descriptors self)
                 (length (_calculate self cxt st).1.2) (cache_clear st)) = (st1, Raise err)
      end
  end.
Proof.
  unfold __call__. destruct (from_calculator self mol id) as [cxt|e]; [|reflexivity].
  pose proof (_calculate_loop_length self cxt (_descriptors self) (cache_clear st)) as Hlen.
  pose proof (_calculate_loop_escape self cxt (_descriptors self) (cache_clear st)) as Hesc.
  unfold _calculate.
  destruct (_calculate_loop self cxt (_descriptors self) (cache_clear st)) as [[st' ys] [err|]];
    simpl in *.
  - destruct (Hesc err eq_refl) as (Hexc & desc & st1 & Hd & Hone & _).
    split; [exact Hexc|]. split; [reflexivity|]. exists desc, st1. auto.
  - exists st', ys. auto.
Qed.

(** X11: [_serial] gives one row per structure, in order, for the
    structures before the first one on which [__call__] raises; each row
    is the list of results [__call__] returns for its structure, from any
    store, and has as many results as the calculator has descriptors;
    [_serial] ends with the exception of [__call__] on that first
    structure, which is that of [from_calculator] or is not an instance of
    [Exception], or without exception when there is no such structure. *)
Theorem serial_rows from_calculator (self : Calculator) (mols : list Mol) id (st : Store) :
  ∃ st' rows e,
    _serial from_calculator self mols id st = (st', rows, e) ∧
    length rows ≤ length mols ∧
    (∀ i m, mols !! i = Some m → i < length rows →
       ∃ r, rows !! i = Some r ∧ length r = __len__ self ∧
            ∀ st0, (__call__ from_calculator self m id st0).2 = Return r) ∧
    match e with
    | None => length rows = length mols
    | Some err =>
        ∃ m, mols !! length rows = Some m ∧
             (∀ st0, (__call__ from_calculator self m id st0).2 = Raise err) ∧
             (from_calculator self m id = Raise err ∨ is_Exception err = false)
    end.
Proof.
  revert st. induction mols as [|m mols IH]; intros st.
  - exists st, [], None. split; [reflexivity|]. split; [reflexivity|].
    split; [intros i m Hi; discriminate | reflexivity].
  - pose proof (__call___outcome from_calculator self m id st) as Hout. simpl.
    destruct (__call__ from_calculator self m id st) as [s1 [r|err]] eqn:Hcall.
    + destruct (IH s1) as (st' & rows & e & -> & Hle & Hrows & He).
      exists st', (r :: rows), e. split; [reflexivity|]. split; [simpl; lia|].
      split.
      * intros [|i] m' Hm Hi; simpl in *.
        -- simplify_eq. exists r. split; [reflexivity|]. split; [exact Hout|].
           intros st0. rewrite (__call___agrees from_calculator self m' id st0 st), Hcall.
           reflexivity.
        -- apply (Hrows i m' Hm). lia.
      * destruct e as [err|]; simpl; [exact He | f_equal; exact He].
    + exists s1, [], (Some err). split; [reflexivity|]. split; [simpl; lia|].
      split; [intros i m' _ Hi; simpl in Hi; lia|].
      exists m. split; [reflexivity|]. split; [|exact Hout].
      intros st0. rewrite (__call___agrees from_calculator self m id st0 st), Hcall.
      reflexivity.
Qed.

(** The first [i] iterations, when they all yield, leave the store in
    which the rest of the loop runs. *)
Lemma _calculate_loop_drop (self : Calculator) (cxt : Context) descs st i :
  i ≤ length (_calculate_loop self cxt descs st).1.2 →
  (_calculate_loop self cxt descs st).1.1 =
  (_calculate_loop self cxt (drop i descs) (store_at self cxt descs i st)).1.1.
Proof.
  unfold store_at. revert st i. induction descs as [|d descs IH]; intros st i Hi.
  - destruct i; reflexivity.
  - destruct i as [|i]; [reflexivity|].
    destruct (_calculate_one self cxt d true st) as [sd od] eqn:Hd.
    change (take (S i) (d :: descs)) with (d :: take i descs).
    change (drop (S i) (d :: descs)) with (drop i descs).
    rewrite (_calculate_loop_cons _ _ _ _ _ _ _ Hd) in Hi.
    rewrite !(_calculate_loop_cons _ _ _ _ _ _ _ Hd).
    destruct (escaping od); [simpl in Hi; lia|].
    assert (Hi' : i ≤ length (_calculate_loop self cxt descs (del_context d sd)).1.2).
    { destruct (_calculate_loop self cxt descs (del_context d sd)) as [[s' ys] e].
      simpl in *. lia. }
    specialize (IH (del_context d sd) i Hi').
    destruct (_calculate_loop self cxt descs (del_context d sd)) as [[s' ys] e].
    destruct (_calculate_loop self cxt (take i descs) (del_context d sd)) as [[s1 ys1] e1].
    exact IH.
Qed.

(** X12: an evaluation invokes [calculate] only for units reachable from
    the registered descriptors whose single-fragment precondition holds,
    and when it is over the cache holds values for such units only. *)
Theorem calculate_touches_reachable_only (self : Calculator) (cxt : Context) (st : Store) :
  ∃ new,
    calls (_calculate self cxt st).1.1 = new ++ calls st ∧
    Forall (λ k, ∃ d, d ∈ reachable (_descriptors self) ∧ uid d = k ∧
                      (require_connected d = false ∨ n_frags cxt = 1)) new ∧
    ∀ k, is_Some (_cache (_calculate self cxt st).1.1 !! k) →
         ∃ d, d ∈ reachable (_descriptors self) ∧ uid d = k ∧
              (require_connected d = false ∨ n_frags cxt = 1).
Proof.
  assert (Hpass : ∀ k, passes cxt (reachable (_descriptors self)) k →
            ∃ d, d ∈ reachable (_descriptors self) ∧ uid d = k ∧
                 (require_connected d = false ∨ n_frags cxt = 1)).
  { intros k (d & Hd & Hk & Hf). exists d. split; [exact Hd|]. split; [exact Hk|].
    unfold fragmented in Hf. apply andb_false_iff in Hf as [Hf|Hf]; [left; exact Hf|].
    right. apply negb_false_iff, Nat.eqb_eq in Hf. exact Hf. }
  destruct (_calculate_loop_growth self cxt (_descriptors self) (cache_clear st))
    as [_ (new & Hnew & Hall) Hk].
  exists new. split; [exact Hnew|]. split.
  - eapply Forall_impl; [exact Hall|]. intros k [Hp _]. apply Hpass, Hp.
  - intros k Hs. destruct (Hk k Hs) as [Hempty|Hp]; [|apply Hpass, Hp].
    simpl in Hempty. rewrite lookup_empty in Hempty. destruct Hempty; discriminate.
Qed.

(** X13: a value that the request of a registered descriptor returned,
    when the loop reached the descriptor, is the result at the index of
    the descriptor, and it is still in the cache, under the descriptor,
    when the evaluation is over. *)
Theorem returned_values_stay_cached (self : Calculator) (cxt : Context) (st : Store)
    i desc st1 v :
  _descriptors self !! i = Some desc →
  i ≤ length (_calculate self cxt st).1.2 →
  _calculate_one self cxt desc true
    (store_at self cxt (_descriptors self) i (cache_clear st)) = (st1, Return v) →
  (_calculate self cxt st).1.2 !! i = Some v ∧
  _cache (_calculate self cxt st).1.1 !! uid desc = Some v.
Proof.
  intros Hi Hreach Hone.
  destruct (_calculate_loop_lookup self cxt _ (cache_clear st) i desc Hi Hreach)
    as (st1' & o & Hone' & Hnext & Hy).
  rewrite Hone in Hone'. injection Hone' as <- <-.
  split; [exact Hy|].
  destruct (_calculate_one_framed self cxt desc _ _ _ _ Hone) as (_ & Hret & _).
  unfold _calculate in *.
  rewrite (_calculate_loop_drop self cxt _ (cache_clear st) (S i)).
  - rewrite Hnext.
    pose proof (_calculate_loop_growth self cxt (drop (S i) (_descriptors self))
                  (del_context desc st1)) as [Hc _ _].
    eapply lookup_weaken; [|exact Hc]. simpl. apply Hret. reflexivity.
  - apply lookup_lt_Some in Hy. lia.
Qed.

(** ** Memoization does not change the values *)

Lemma pure_eval_eq debug (cxt : Context) desc :
  pure_eval debug cxt desc =
  if fragmented cxt desc then Raise (fail MultipleFragments)
  else
    match pure_args debug cxt (dependencies desc) with
    | Raise e => Raise e
    | Return args =>
        match calculate desc cxt args with
        | Raise e => Raise e
        | Return r =>
            match (if debug then _check_rtype desc r else None) with
            | Some e => Raise e
            | None => Return r
            end
        end
    end.
Proof. destruct desc; reflexivity. Qed.

Lemma pure_args_cons debug (cxt : Context) name dep deps :
  pure_args debug cxt ((name, dep) :: deps) =
  match
    match dep with
    | Some dep => pure_eval debug cxt dep
    | None => Return VNone
    end
  with
  | Raise e => Raise e
  | Return v =>
      match pure_args debug cxt deps with
      | Raise e => Raise e
      | Return args => Return ((name, v) :: args)
      end
  end.
Proof. reflexivity. Qed.

Section Sound.

Variable self : Calculator.
Variable cxt : Context.
Variable S : list Descriptor.
Hypothesis S_unique : ∀ a b, a ∈ S → b ∈ S → uid a = uid b → a = b.

Local Abbreviation sound := (cache_sound (_debug self) cxt S).

Lemma sound_enter desc reset st : sound st → sound (enter cxt desc reset st).
Proof. intros Hs d v Hd. rewrite cache_enter. apply Hs, Hd. Qed.

Lemma resolve_deps_sound deps :
  deps_all (request_sound self cxt S) deps →
  closure_deps deps ⊆ S →
  ∀ st st' o,
    sound st → resolve_deps self cxt deps st = (st', o) →
    o = pure_args (_debug self) cxt deps ∧ sound st'.
Proof using S_unique.
  induction deps as [|[name dep] deps IH]; intros Hall Hsub st st' o Hs Hres.
  - simplify_eq/=. auto.
  - apply deps_all_inv in Hall as [Hdep Hall].
    rewrite closure_deps_cons in Hsub.
    rewrite resolve_deps_cons in Hres. rewrite pure_args_cons.
    assert (Hhead : ∀ s1 o1,
      match dep with
      | Some dep => _calculate_one self cxt dep false st
      | None => (st, Return VNone) end = (s1, o1) →
      o1 = match dep with
           | Some dep => pure_eval (_debug self) cxt dep
           | None => Return VNone end ∧ sound s1).
    { intros s1 o1 Hone. destruct dep as [d|].
      - eapply Hdep; [|exact Hs|exact Hone]. set_solver.
      - simplify_eq. auto. }
    destruct (match dep with
              | Some dep => _calculate_one self cxt dep false st
              | None => (st, Return VNone) end) as [s1 o1].
    destruct (Hhead s1 o1 eq_refl) as [<- Hs1].
    destruct o1 as [v|e]; [|simplify_eq; auto].
    destruct (resolve_deps self cxt deps s1) as [s2 o2] eqn:Htail.
    destruct (IH Hall ltac:(set_solver) _ _ _ Hs1 Htail) as [<- Hs2].
    destruct o2; simplify_eq; auto.
Qed.

Lemma _calculate_one_sound desc : request_sound self cxt S desc.
Proof using S_unique.
  induction desc as [desc IH] using Descriptor_deps_ind.
  intros Hsub reset st st' o Hs Hone.
  assert (Hin : desc ∈ S) by (apply Hsub, closure_self).
  destruct (_cache st !! uid desc) as [r|] eqn:Hcache.
  - rewrite (_calculate_one_hit _ _ _ _ _ _ Hcache) in Hone. simplify_eq.
    split; [|exact Hs]. symmetry. apply (Hs desc r Hin Hcache).
  - rewrite (_calculate_one_miss _ _ _ _ _ Hcache) in Hone. cbv zeta in Hone.
    rewrite pure_eval_eq.
    pose proof (sound_enter desc reset st Hs) as Hs1.
    destruct (fragmented cxt desc) eqn:Hfrag; [simplify_eq; auto|].
    destruct (resolve_deps self cxt (dependencies desc) (enter cxt desc reset st))
      as [st2 oa] eqn:Hres.
    assert (Hsubd : closure_deps (dependencies desc) ⊆ S).
    { rewrite closure_eq in Hsub. set_solver. }
    destruct (resolve_deps_sound _ IH Hsubd _ _ _ Hs1 Hres) as [Hoa Hs2]. subst oa.
    destruct (pure_args (_debug self) cxt (dependencies desc)) as [args|e] eqn:Hargs;
      [|simplify_eq; auto].
    unfold finish in Hone.
    destruct (calculate desc cxt args) as [r|e] eqn:Hcalc; [|simplify_eq; auto].
    destruct (if _debug self then _check_rtype desc r else None) as [e|] eqn:Hcheck;
      [simplify_eq; auto|].
    simplify_eq. split; [reflexivity|].
    intros d v Hd. simpl.
    destruct (decide (uid desc = uid d)) as [Heq|Hne].
    + rewrite <- Heq, lookup_insert_eq. intros [= <-].
      rewrite <- (S_unique desc d Hin Hd Heq).
      rewrite pure_eval_eq, Hfrag, Hargs, Hcalc, Hcheck. reflexivity.
    + rewrite lookup_insert_ne by exact Hne. apply Hs2, Hd.
Qed.

End Sound.

Lemma _calculate_loop_sound (self : Calculator) (cxt : Context) S descs st :
  (∀ a b, a ∈ S → b ∈ S → uid a = uid b → a = b) →
  reachable descs ⊆ S →
  cache_sound (_debug self) cxt S st →
  cache_sound (_debug self) cxt S (_calculate_loop self cxt descs st).1.1.
Proof.
  intros Huniq. revert st.
  induction descs as [|d descs IH]; intros st Hsub Hs; [exact Hs|].
  destruct (_calculate_one self cxt d true st) as [s1 o] eqn:Hone.
  rewrite (_calculate_loop_cons _ _ _ _ _ _ _ Hone).
  rewrite reachable_cons in Hsub.
  destruct (_calculate_one_sound self cxt S Huniq d ltac:(set_solver) _ _ _ _ Hs Hone)
    as [_ Hs1].
  destruct (escaping o); [exact Hs1|].
  specialize (IH (del_context d s1) ltac:(set_solver) Hs1).
  destruct (_calculate_loop self cxt descs (del_context d s1)) as [[s' ys] e].
  exact IH.
Qed.

(** X14: when the descriptor objects have unique identities, the result of
    every registered descriptor the loop reaches is the one of the
    evaluation without cache: the value, or the failure that carries its
    exception; and when that exception is not an instance of [Exception],
    it leaves the evaluation at this descriptor.  So a result depends on
    the descriptor, the context and the debug flag only, not on the other
    descriptors of the registry or on their order, but for the stack a
    failure carries. *)
Theorem results_are_uncached_values (self : Calculator) (cxt : Context) (st : Store) i desc :
  identities_unique (_descriptors self) →
  _descriptors self !! i = Some desc →
  i ≤ length (_calculate self cxt st).1.2 →
  match escaping (pure_eval (_debug self) cxt desc) with
  | Some err =>
      (_calculate self cxt st).2 = Some err ∧ length (_calculate self cxt st).1.2 = i
  | None =>
      ∃ y, (_calculate self cxt st).1.2 !! i = Some y ∧
           match pure_eval (_debug self) cxt desc with
           | Return v => y = v
           | Raise (MissingValueException error) => ∃ stack, y = Missing error stack
           | Raise e => ∃ stack, y = Error e stack
           end
  end.
Proof.
  intros Huniq Hi Hreach.
  destruct (_calculate_loop_lookup self cxt _ (cache_clear st) i desc Hi Hreach)
    as (st1 & o & Hone & _ & Hy).
  assert (Hs : cache_sound (_debug self) cxt (reachable (_descriptors self))
                 (store_at self cxt (_descriptors self) i (cache_clear st))).
  { apply _calculate_loop_sound; [exact Huniq | apply reachable_take |].
    intros d v _ Hd. simpl in Hd. rewrite lookup_empty in Hd. discriminate. }
  assert (Hsub : closure desc ⊆ reachable (_descriptors self)).
  { intros x Hx. unfold reachable. apply list_elem_of_bind. exists desc.
    split; [exact Hx | eapply list_elem_of_lookup_2, Hi]. }
  destruct (_calculate_one_sound self cxt _ Huniq desc Hsub _ _ _ _ Hs Hone) as [<- _].
  unfold _calculate.
  destruct (escaping o) as [err|] eqn:Hesc.
  - destruct Hy as (He & Hl & _). auto.
  - exists (result_of cxt st1 o). split; [exact Hy|].
    destruct o as [v|[]]; simpl; eauto.
Qed.

(** ** The diagnostic stack *)

Lemma get_stack_finish (self : Calculator) (cxt : Context) desc args st st' o :
  finish self cxt desc args st = (st', o) → get_stack cxt st' = get_stack cxt st.
Proof.
  unfold finish. intros Hfin. destruct (calculate desc cxt args) as [r|e]; [|simplify_eq; reflexivity].
  destruct (if _debug self then _check_rtype desc r else None); simplify_eq; reflexivity.
Qed.

Lemma resolve_deps_pushes (self : Calculator) (cxt : Context) deps :
  deps_all (request_pushes self cxt) deps →
  ∀ st st' o, resolve_deps self cxt deps st = (st', o) →
    ∃ new, get_stack cxt st' = get_stack cxt st ++ new ∧
           Forall (λ k, k ∈ uid <$> closure_deps deps) new.
Proof.
  induction deps as [|[name dep] deps IH]; intros Hall st st' o Hres.
  - simplify_eq/=. exists []. rewrite app_nil_r. split; [reflexivity | constructor].
  - apply deps_all_inv in Hall as [Hdep Hall].
    rewrite resolve_deps_cons in Hres. rewrite closure_deps_cons.
    assert (Hhead : ∀ s1 o1,
      match dep with
      | Some dep => _calculate_one self cxt dep false st
      | None => (st, Return VNone) end = (s1, o1) →
      ∃ new, get_stack cxt s1 = get_stack cxt st ++ new ∧
             Forall (λ k, k ∈ uid <$> (match dep with Some d => closure d | None => [] end
                                       ++ closure_deps deps)) new).
    { intros s1 o1 Hone. destruct dep as [d|].
      - destruct (Hdep _ _ _ _ Hone) as (new & Hst & Hall1 & _).
        exists new. split.
        + rewrite Hst. destruct (_cache st !! uid d); reflexivity.
        + eapply Forall_impl; [exact Hall1|]. intros k Hk. rewrite fmap_app.
          apply elem_of_app. left. exact Hk.
      - simplify_eq. exists []. rewrite app_nil_r. split; [reflexivity | constructor]. }
    destruct (match dep with
              | Some dep => _calculate_one self cxt dep false st
              | None => (st, Return VNone) end) as [s1 [v|e]] eqn:Hone.
    2:{ simplify_eq. eapply Hhead. reflexivity. }
    destruct (Hhead s1 (Return v) eq_refl) as (n1 & Hst1 & Hall1).
    destruct (resolve_deps self cxt deps s1) as [s2 o2] eqn:Htail.
    assert (st' = s2) as -> by (destruct o2; simplify_eq; reflexivity).
    destruct (IH Hall _ _ _ Htail) as (n2 & Hst2 & Hall2).
    exists (n1 ++ n2). rewrite Hst2, Hst1, app_assoc. split; [reflexivity|].
    apply Forall_app. split; [exact Hall1|].
    eapply Forall_impl; [exact Hall2|]. intros k Hk. rewrite fmap_app.
    apply elem_of_app. right. exact Hk.
Qed.

Lemma _calculate_one_pushes (self : Calculator) (cxt : Context) desc :
  request_pushes self cxt desc.
Proof.
  induction desc as [desc IH] using Descriptor_deps_ind.
  intros reset st st' o Hone.
  destruct (_cache st !! uid desc) as [r|] eqn:Hcache.
  - rewrite (_calculate_one_hit _ _ _ _ _ _ Hcache) in Hone. simplify_eq.
    exists []. rewrite app_nil_r. split; [reflexivity|]. split; [constructor | reflexivity].
  - rewrite (_calculate_one_miss _ _ _ _ _ Hcache) in Hone. cbv zeta in Hone.
    assert (Hgoal : ∀ rest,
      get_stack cxt st' = get_stack cxt (enter cxt desc reset st) ++ rest →
      Forall (λ k, k ∈ uid <$> closure_deps (dependencies desc)) rest →
      ∃ new,
        get_stack cxt st' = (if reset then [] else get_stack cxt st) ++ new ∧
        Forall (λ k, k ∈ uid <$> closure desc) new ∧
        ∃ rest, new = uid desc :: rest ∧
                Forall (λ k, k ∈ uid <$> closure_deps (dependencies desc)) rest).
    { intros rest Hst Hrest. exists (uid desc :: rest).
      rewrite Hst, get_stack_enter, <- app_assoc. split; [reflexivity|]. split; [|eauto].
      rewrite closure_eq, fmap_cons. constructor; [left|].
      eapply Forall_impl; [exact Hrest|]. intros k Hk. right. exact Hk. }
    destruct (fragmented cxt desc).
    { simplify_eq. apply (Hgoal []); [rewrite app_nil_r; reflexivity | constructor]. }
    destruct (resolve_deps self cxt (dependencies desc) (enter cxt desc reset st))
      as [st2 [args|e]] eqn:Hres;
      destruct (resolve_deps_pushes _ _ _ IH _ _ _ Hres) as (rest & Hst & Hrest).
    + apply (Hgoal rest); [|exact Hrest].
      rewrite (get_stack_finish _ _ _ _ _ _ _ Hone). exact Hst.
    + simplify_eq. apply (Hgoal rest); assumption.
Qed.

(** X15: the stack is never popped.  After a top-level request that misses
    the cache, whatever its outcome, the stack of the context is the
    requested unit followed by units reachable through its dependencies;
    a request raises only after a miss, so the stack a [Missing] or an
    [Error] of [_calculate] carries starts with the descriptor it stands
    for. *)
Theorem stack_starts_with_requested_unit (self : Calculator) (cxt : Context) desc st st' o :
  _calculate_one self cxt desc true st = (st', o) →
  (_cache st !! uid desc = None →
   ∃ rest, get_stack cxt st' = uid desc :: rest ∧
           Forall (λ k, k ∈ uid <$> closure_deps (dependencies desc)) rest) ∧
  (∀ e, o = Raise e → _cache st !! uid desc = None).
Proof.
  intros Hone. split.
  - intros Hmiss. destruct (_calculate_one_pushes self cxt desc _ _ _ _ Hone)
      as (new & Hst & _ & Hnew).
    rewrite Hmiss in Hst, Hnew. destruct Hnew as (rest & -> & Hrest).
    exists rest. split; [exact Hst | exact Hrest].
  - intros e ->. destruct (_cache st !! uid desc) as [r|] eqn:Hcache; [|reflexivity].
    rewrite (_calculate_one_hit _ _ _ _ _ _ Hcache) in Hone. discriminate.
Qed.


(** ** The type check of debug mode *)

(** X19: for a top-level request that reaches [calculate] and gets a value
    [r]: in debug mode, when the unit declares a result type that [r] does
    not have and [r] is not an [Error] value, [_calculate] yields
    [Error(TypeError, stack)] for the unit and memoizes nothing, so the
    mismatch does not leave the evaluation; a [Missing] value is checked
    like any other value, [Error] values alone are exempt; in every other
    case (debug off, no declared type, an [Error] value, a value of the
    declared type) [r] is yielded and memoized. *)
Theorem type_check_in_debug_mode (self : Calculator) (cxt : Context) desc st st2 args r :
  _cache st !! uid desc = None →
  fragmented cxt desc = false →
  resolve_deps self cxt (dependencies desc) (enter cxt desc true st) = (st2, Return args) →
  calculate desc cxt args = Return r →
  (∀ isinstance,
     _debug self = true → rtype desc = Some isinstance →
     is_Error r = false → isinstance r = false →
     _calculate_step self cxt desc st =
     (del_context desc (log_call desc st2), Return (Error TypeError (get_stack cxt st2))) ∧
     _cache (_calculate_step self cxt desc st).1 = _cache st2) ∧
  (∀ isinstance error stack,
     _debug self = true → rtype desc = Some isinstance →
     r = Missing error stack → isinstance r = false →
     (_calculate_step self cxt desc st).2 =
     Return (Error TypeError (get_stack cxt st2))) ∧
  (_debug self = false ∨ rtype desc = None ∨ is_Error r = true ∨
   (∃ isinstance, rtype desc = Some isinstance ∧ isinstance r = true) →
   _calculate_step self cxt desc st =
   (del_context desc (cache_store desc r (log_call desc st2)), Return r) ∧
   _cache (_calculate_step self cxt desc st).1 !! uid desc = Some r).
Proof.
  intros Hmiss Hfrag Hres Hcalc.
  assert (Hone : _calculate_one self cxt desc true st = finish self cxt desc args st2).
  { rewrite (_calculate_one_miss _ _ _ _ _ Hmiss). cbv zeta. rewrite Hfrag, Hres.
    reflexivity. }
  unfold finish in Hone. rewrite Hcalc in Hone. unfold _check_rtype in Hone.
  split; [|split].
  - intros isinstance Hdbg Hrt Herr Hinst.
    rewrite Hdbg, Hrt, Herr, Hinst in Hone.
    rewrite (_calculate_step_eq _ _ _ _ _ _ Hone). split; reflexivity.
  - intros isinstance error stack Hdbg Hrt -> Hinst.
    rewrite Hdbg, Hrt, Hinst in Hone. simpl in Hone.
    rewrite (_calculate_step_eq _ _ _ _ _ _ Hone). reflexivity.
  - intros Hok.
    assert (Hpass : (if _debug self
                     then match rtype desc with
                          | Some isinstance =>
                              if is_Error r then None
                              else if isinstance r then None else Some TypeError
                          | None => None
                          end
                     else None) = None).
    { destruct Hok as [->|[->|[->|(f & -> & ->)]]]; try reflexivity.
      - destruct (_debug self); reflexivity.
      - destruct (_debug self), (rtype desc); reflexivity.
      - destruct (_debug self), (is_Error r); reflexivity. }
    rewrite Hpass in Hone.
    rewrite (_calculate_step_eq _ _ _ _ _ _ Hone). split; [reflexivity|].
    simpl. apply lookup_insert_eq.
Qed.

End Properties.

(** * Properties of [get_descriptors_from_module] *)

Section ModuleScanProperties.

Context {Obj : Type}.
Variable is_descriptor_class : Obj → bool.
Variable is_module : Obj → bool.
Variable getsourcelines : Obj → Outcome nat.
Variable maxsize : nat.

Local Abbreviation key_of := (key_by_def getsourcelines maxsize).
Local Abbreviation key := (sort_key getsourcelines maxsize).
Local Abbreviation decorated := (decorate getsourcelines maxsize).
Local Abbreviation scan := (get_descriptors_from_module is_descriptor_class is_module
                              getsourcelines maxsize).
Local Abbreviation found_in := (collect is_descriptor_class is_module).
Local Abbreviation accepts := (check is_descriptor_class is_module).

Lemma insert_by_perm {A} (f : A → nat) x l : insert_by f x l ≡ₚ x :: l.
Proof.
  induction l as [|y l IH]; simpl; [reflexivity|].
  destruct (f x <=? f y); [reflexivity|]. rewrite IH. apply Permutation_swap.
Qed.

Lemma sort_by_perm {A} (f : A → nat) l : sort_by f l ≡ₚ l.
Proof.
  induction l as [|x l IH]; simpl; [reflexivity|].
  rewrite insert_by_perm, IH. reflexivity.
Qed.

Lemma insert_by_sorted {A} (f : A → nat) x l :
  StronglySorted (λ a b, f a ≤ f b) l →
  StronglySorted (λ a b, f a ≤ f b) (insert_by f x l).
Proof.
  induction 1 as [|y l Hl IH Hy]; simpl.
  - constructor; constructor.
  - destruct (f x <=? f y) eqn:Hle.
    + apply Nat.leb_le in Hle. constructor; [constructor; assumption|].
      constructor; [exact Hle|]. eapply Forall_impl; [exact Hy|].
      intros z Hz. simpl in Hz. lia.
    + apply Nat.leb_gt in Hle. constructor; [exact IH|].
      rewrite insert_by_perm. constructor; [lia | exact Hy].
Qed.

Lemma sort_by_sorted {A} (f : A → nat) l :
  StronglySorted (λ a b, f a ≤ f b) (sort_by f l).
Proof.
  induction l as [|x l IH]; simpl; [constructor | apply insert_by_sorted, IH].
Qed.

Lemma insert_by_stable {A} (f : A → nat) k x l :
  filter (λ a, f a = k) (insert_by f x l) = filter (λ a, f a = k) (x :: l).
Proof.
  induction l as [|y l IH]; simpl; [reflexivity|].
  destruct (f x <=? f y) eqn:Hle; [reflexivity|]. apply Nat.leb_gt in Hle.
  rewrite (filter_cons _ y (insert_by f x l)), IH, !filter_cons.
  destruct (decide (f y = k)) as [Hy|Hy]; [|reflexivity].
  destruct (decide (f x = k)) as [Hx|Hx]; [lia | reflexivity].
Qed.

Lemma sort_by_stable {A} (f : A → nat) k l :
  filter (λ a, f a = k) (sort_by f l) = filter (λ a, f a = k) l.
Proof.
  induction l as [|x l IH]; simpl; [reflexivity|].
  rewrite insert_by_stable, !filter_cons, IH. reflexivity.
Qed.

(** Sorting the objects paired with their keys is sorting the objects by
    their keys. *)
Lemma insert_by_keyed {A} (f : A → nat) x l :
  snd <$> insert_by fst (f x, x) ((λ a, (f a, a)) <$> l) = insert_by f x l.
Proof.
  induction l as [|y l IH]; [reflexivity|].
  rewrite fmap_cons. simpl. destruct (f x <=? f y).
  - rewrite !fmap_cons. simpl. f_equal. f_equal.
    rewrite <- list_fmap_compose. apply list_fmap_id.
  - rewrite fmap_cons, IH. reflexivity.
Qed.

Lemma insert_by_keyed_fmap {A} (f : A → nat) x l :
  insert_by fst (f x, x) ((λ a, (f a, a)) <$> l) = (λ a, (f a, a)) <$> insert_by f x l.
Proof.
  induction l as [|y l IH]; [reflexivity|].
  rewrite fmap_cons. simpl. destruct (f x <=? f y).
  - rewrite !fmap_cons. reflexivity.
  - rewrite fmap_cons, IH. reflexivity.
Qed.

Lemma sort_by_keyed {A} (f : A → nat) l :
  sort_by fst ((λ a, (f a, a)) <$> l) = (λ a, (f a, a)) <$> sort_by f l.
Proof.
  induction l as [|x l IH]; [reflexivity|].
  rewrite fmap_cons. simpl. rewrite IH. apply insert_by_keyed_fmap.
Qed.

Lemma key_by_def_Raise d e :
  key_of d = Raise e ↔ getsourcelines d = Raise e ∧ e ≠ IOError.
Proof.
  unfold key_by_def. destruct (getsourcelines d) as [line|e0].
  - split; [discriminate | intros [H _]; discriminate].
  - destruct e0;
      (split; [intros [= <-]; (split; [reflexivity | discriminate])
              | intros [[= <-] Hne]; try reflexivity; congruence]).
Qed.

Lemma decorate_Return descs keyed :
  decorated descs = Return keyed →
  keyed = (λ d, (key d, d)) <$> descs ∧
  Forall (λ d, key_of d = Return (key d)) descs.
Proof.
  revert keyed. induction descs as [|d descs IH]; intros keyed Hdec.
  - injection Hdec as <-. split; [reflexivity | constructor].
  - cbn [decorate] in Hdec.
    destruct (key_of d) as [k|e] eqn:Hk; [|discriminate].
    destruct (decorated descs) as [rest|e]; [|discriminate].
    injection Hdec as <-. destruct (IH rest eq_refl) as [-> Hall].
    assert (Hkey : key d = k) by (unfold sort_key; rewrite Hk; reflexivity).
    split.
    + rewrite fmap_cons, Hkey. reflexivity.
    + constructor; [rewrite Hkey; exact Hk | exact Hall].
Qed.

Lemma decorate_Raise descs e :
  decorated descs = Raise e ↔
  ∃ i d, descs !! i = Some d ∧ key_of d = Raise e ∧
         ∀ j d', j < i → descs !! j = Some d' → ∃ k, key_of d' = Return k.
Proof.
  induction descs as [|d descs IH].
  - split; [discriminate|]. intros (i & d & Hi & _). destruct i; discriminate.
  - cbn [decorate]. destruct (key_of d) as [k|e0] eqn:Hk.
    + revert IH. destruct (decorated descs) as [rest|e1]; intros IH.
      * split; [discriminate|]. intros (i & d' & Hi & He & Hb).
        destruct i as [|i]; simpl in Hi; [simplify_eq; congruence|].
        assert (Hr : Return rest = Raise e); [|discriminate Hr].
        apply IH. exists i, d'. split; [exact Hi|]. split; [exact He|].
        intros j d'' Hj Hl. apply (Hb (S j)); [lia | exact Hl].
      * split.
        -- intros [= ->]. destruct (proj1 IH eq_refl) as (i & d' & Hi & He & Hb).
           exists (S i), d'. split; [exact Hi|]. split; [exact He|].
           intros [|j] d'' Hj Hl; simpl in Hl; [simplify_eq; eauto|].
           apply (Hb j); [lia | exact Hl].
        -- intros (i & d' & Hi & He & Hb).
           destruct i as [|i]; simpl in Hi; [simplify_eq; congruence|].
           apply IH. exists i, d'. split; [exact Hi|]. split; [exact He|].
           intros j d'' Hj Hl. apply (Hb (S j)); [lia | exact Hl].
    + split.
      * intros [= ->]. exists 0, d. split; [reflexivity|]. split; [exact Hk|].
        intros j d' Hj. lia.
      * intros (i & d' & Hi & He & Hb). destruct i as [|i]; simpl in Hi.
        -- simplify_eq. congruence.
        -- destruct (Hb 0 d) as [k Hk']; [lia | reflexivity | congruence].
Qed.

(** When the scan returns, every key was computed, and the result is the
    list of the objects found, sorted by their keys. *)
Lemma scan_Return (mdl : PyModule) submodule descs :
  scan mdl submodule = Return descs →
  ∃ found,
    found_in mdl submodule (scanned_names mdl) = Return found ∧
    Forall (λ d, key_of d = Return (key d)) found ∧
    descs = sort_by key found.
Proof.
  unfold get_descriptors_from_module. intros Hscan.
  destruct (found_in mdl submodule (scanned_names mdl)) as [found|e]; [|discriminate].
  destruct (decorated found) as [keyed|e] eqn:Hdec; [|discriminate].
  injection Hscan as <-. destruct (decorate_Return _ _ Hdec) as [-> Hall].
  exists found. split; [reflexivity|]. split; [exact Hall|].
  rewrite sort_by_keyed, <- list_fmap_compose. apply list_fmap_id.
Qed.

Lemma collect_members (mdl : PyModule) submodule names found :
  found_in mdl submodule names = Return found →
  ∀ fn, fn ∈ found ↔
        ∃ name, name ∈ names ∧ public name = true ∧
                mod_attr mdl !! name = Some fn ∧ accepts submodule fn = true.
Proof.
  revert found. induction names as [|name names IH]; intros found Hcol fn.
  - simplify_eq/=. split; [intros H; inversion H|].
    intros (n & Hn & _). inversion Hn.
  - simpl in Hcol. destruct (public name) eqn:Hpub.
    + destruct (mod_attr mdl !! name) as [fn0|] eqn:Hattr; [|discriminate].
      destruct (found_in mdl submodule names) as [rest|e]; [|discriminate].
      specialize (IH rest eq_refl fn). injection Hcol as <-.
      destruct (accepts submodule fn0) eqn:Hacc.
      * rewrite elem_of_cons, IH. split.
        -- intros [->|(n & Hn & Hrest)]; [exists name; repeat split; auto; left|].
           exists n. split; [right; exact Hn | exact Hrest].
        -- intros (n & [->|Hn]%elem_of_cons & Hp & Ha & Hc).
           ++ left. congruence.
           ++ right. eauto.
      * rewrite IH. split.
        -- intros (n & Hn & Hrest). exists n. split; [right; exact Hn | exact Hrest].
        -- intros (n & [->|Hn]%elem_of_cons & Hp & Ha & Hc); [congruence | eauto].
    + rewrite (IH found Hcol fn). split.
      * intros (n & Hn & Hrest). exists n. split; [right; exact Hn | exact Hrest].
      * intros (n & [->|Hn]%elem_of_cons & Hp & Ha & Hc); [congruence | eauto].
Qed.

(** X16: the objects [get_descriptors_from_module] returns are exactly the
    attributes of the module, under a name of [__all__] (of [dir] when
    there is no [__all__]) that does not start with an underscore, that
    are descriptor classes, or modules when [submodule] is set. *)
Theorem module_scan_members (mdl : PyModule) submodule descs :
  scan mdl submodule = Return descs →
  ∀ fn, fn ∈ descs ↔
        ∃ name, name ∈ scanned_names mdl ∧ public name = true ∧
                mod_attr mdl !! name = Some fn ∧
                (is_descriptor_class fn = true ∨
                 (submodule = true ∧ is_module fn = true)).
Proof.
  intros Hscan fn. destruct (scan_Return _ _ _ Hscan) as (found & Hcol & _ & ->).
  rewrite sort_by_perm, (collect_members _ _ _ _ Hcol).
  assert (Hacc : accepts submodule fn = true ↔
            is_descriptor_class fn = true ∨ (submodule = true ∧ is_module fn = true)).
  { unfold check. destruct submodule.
    - rewrite orb_true_iff. split; [intros [H|H]; auto | intros [H|[_ H]]; auto].
    - split; [auto | intros [H|[H _]]; [exact H | discriminate]]. }
  split; intros (n & Hn & Hp & Ha & Hc); exists n; repeat split; auto; apply Hacc, Hc.
Qed.

(** X17: when [get_descriptors_from_module] returns, the key function
    returned on every object found, and the result is a rearrangement of
    the objects found, in ascending order of their keys, the line of the
    definition, or [sys.maxsize] for an object whose source cannot be
    read; objects with the same key keep the order in which they were
    found. *)
Theorem module_scan_sorted (mdl : PyModule) submodule descs :
  scan mdl submodule = Return descs →
  ∃ found,
    found_in mdl submodule (scanned_names mdl) = Return found ∧
    Forall (λ d, key_of d = Return (key d)) found ∧
    descs ≡ₚ found ∧
    StronglySorted (λ a b, key a ≤ key b) descs ∧
    ∀ k, filter (λ d, key d = k) descs = filter (λ d, key d = k) found.
Proof.
  intros Hscan. destruct (scan_Return _ _ _ Hscan) as (found & Hcol & Hall & ->).
  exists found. split; [exact Hcol|]. split; [exact Hall|].
  split; [apply sort_by_perm|]. split; [apply sort_by_sorted|].
  intros k. apply sort_by_stable.
Qed.

Lemma collect_raises (mdl : PyModule) submodule names e :
  found_in mdl submodule names = Raise e ↔
  e = AttributeError ∧
  ∃ name, name ∈ names ∧ public name = true ∧ mod_attr mdl !! name = None.
Proof.
  induction names as [|name names IH]; simpl.
  - split; [discriminate|]. intros (_ & n & Hn & _). inversion Hn.
  - destruct (public name) eqn:Hpub.
    + destruct (mod_attr mdl !! name) as [fn|] eqn:Hattr.
      * destruct (found_in mdl submodule names) as [rest|e0].
        -- split; [discriminate|]. intros (He & n & [->|Hn]%elem_of_cons & Hp & Ha).
           ++ congruence.
           ++ assert (Hr : Return rest = Raise e) by (apply IH; eauto). discriminate Hr.
        -- split.
           ++ intros [= ->]. destruct (proj1 IH eq_refl) as (He & n & Hn & Hrest).
              split; [exact He|]. exists n. split; [right; exact Hn | exact Hrest].
           ++ intros (He & n & [->|Hn]%elem_of_cons & Hp & Ha); [congruence|].
              apply IH. eauto.
      * split.
        -- intros [= <-]. split; [reflexivity|]. exists name. split; [left | auto].
        -- intros [-> _]. reflexivity.
    + rewrite IH. split.
      * intros (He & n & Hn & Hrest). split; [exact He|].
        exists n. split; [right; exact Hn | exact Hrest].
      * intros (He & n & [->|Hn]%elem_of_cons & Hp & Ha); [congruence | eauto].
Qed.

(** X18: [get_descriptors_from_module] raises in two cases, with or
    without [submodule]: when a name it goes through that does not start
    with an underscore is not an attribute of the module, it raises
    [AttributeError]; when every such name is an attribute and
    [getsourcelines] raises another exception than [IOError] on an object
    found, it raises the exception of the first such object. *)
Theorem module_scan_raises (mdl : PyModule) submodule e :
  scan mdl submodule = Raise e ↔
  (e = AttributeError ∧
   ∃ name, name ∈ scanned_names mdl ∧ public name = true ∧ mod_attr mdl !! name = None) ∨
  (∃ found i d,
     found_in mdl submodule (scanned_names mdl) = Return found ∧
     found !! i = Some d ∧ getsourcelines d = Raise e ∧ e ≠ IOError ∧
     ∀ j d', j < i → found !! j = Some d' → ∃ k, key_of d' = Return k).
Proof.
  unfold get_descriptors_from_module.
  destruct (found_in mdl submodule (scanned_names mdl)) as [found|e0] eqn:Hcol.
  - split.
    + destruct (decorated found) as [keyed|e1] eqn:Hdec; [discriminate|].
      intros [= ->]. right.
      destruct (proj1 (decorate_Raise found e) Hdec) as (i & d & Hi & Hk & Hb).
      apply key_by_def_Raise in Hk as [Hsrc Hne].
      exists found, i, d. auto.
    + intros [[-> Hmissing] | (found' & i & d & [= <-] & Hi & Hsrc & Hne & Hb)].
      * assert (Hr : found_in mdl submodule (scanned_names mdl) = Raise AttributeError)
          by (apply collect_raises; auto).
        congruence.
      * assert (Hdec : decorated found = Raise e).
        { apply decorate_Raise. exists i, d. split; [exact Hi|].
          split; [apply key_by_def_Raise; auto | exact Hb]. }
        rewrite Hdec. reflexivity.
  - split.
    + intros [= ->]. left. apply (collect_raises mdl submodule), Hcol.
    + intros [[-> Hmissing] | (found & i & d & Hc & _)]; [|discriminate].
      assert (Hr : found_in mdl submodule (scanned_names mdl) = Raise AttributeError)
        by (apply collect_raises; auto).
      congruence.
Qed.

End ModuleScanProperties.

(** * The properties on the sample descriptors *)

Module Checks.
Import Samples.



(** The units reachable from [F] and [A] have distinct identities. *)
Lemma sample_identities_unique : identities_unique [sF; sA].
Proof.
  intros a b Ha Hb Huid.
  change (reachable [sF; sA]) with [sF; sX; sA] in Ha, Hb.
  rewrite !elem_of_cons, elem_of_nil in Ha, Hb.
  destruct Ha as [->|[->|[->|[]]]]; destruct Hb as [->|[->|[->|[]]]];
    first [reflexivity | discriminate Huid].
Qed.

(** ** C1 *)

(** [K] is interrupted while it computes: the interrupt is not an
    instance of [Exception], no handler catches it, and it leaves the
    evaluation; [A] has its result, [K] and [B] have none. *)
Lemma interrupt_leaves_evaluation :
  let self := calculator_of [sA; sK; sB] in
  __len__ self = 3 ∧
  (_calculate self (cxt_of 1) store0).1.2 = [Scalar 1] ∧
  (_calculate self (cxt_of 1) store0).2 = Some KeyboardInterrupt ∧
  (__call__ from_calc self tt 0%Z store0).2 = Raise KeyboardInterrupt.
Proof. vm_compute. repeat split. Qed.

Lemma calculate_one_result_per_unit_witness :
  ∃ st' ys,
    _calculate (calculator_of [sE; sD; sB; sA]) (cxt_of 1) store0 = (st', ys, None) ∧
    length ys = 4 ∧
    ys !! 1 = Some (Missing (Raised 0) [uid sD]).
Proof.
  destruct (calculate_one_result_per_unit (calculator_of [sE; sD; sB; sA]) (cxt_of 1) store0)
    as (st' & ys & e & Hrun & Hat & He).
  assert (Hnone : (_calculate (calculator_of [sE; sD; sB; sA]) (cxt_of 1) store0).2 = None)
    by reflexivity.
  rewrite Hrun in Hnone. simpl in Hnone. subst e.
  change (length (_descriptors (calculator_of [sE; sD; sB; sA]))) with 4 in He.
  exists st', ys. split; [exact Hrun|]. split; [exact He|].
  destruct (Hat 1 sD eq_refl) as (st1 & o & y & Hone & Hy & Hres); [rewrite He; lia|].
  vm_compute in Hone. injection Hone as <- <-. rewrite Hy, Hres. reflexivity.
Defined.

(** ** C2 *)


(** The request of [H] raises with the exception of [D]: nothing is
    memoized for [H], and the value of [A], which returned before [D]
    failed, stays memoized. *)
Lemma dependency_memoized_before_failure :
  let self := calculator_of [sH] in
  (_calculate_one self (cxt_of 1) sH true store0).2 =
    Raise (MissingValueException (Raised 0)) ∧
  _cache (_calculate_one self (cxt_of 1) sH true store0).1 !! uid sH = None ∧
  _cache (_calculate_one self (cxt_of 1) sH true store0).1 !! uid sA = Some (Scalar 1).
Proof. vm_compute. repeat split. Qed.


(** ** C3 *)



(** ** C4 *)

(** [G] does not require 3D but its dependency [C] does: registered with
    [ignore_3D], [G] is not skipped and [C] sets the aggregate. *)
Lemma dependency_3D_not_ignored :
  let self := (register (Instance sG) true (empty_calculator false)).1 in
  sC ∈ closure sG ∧ require_3D sC = true ∧
  require_3D <$> closure sG = [false; true; false] ∧
  name <$> _descriptors self = ["G"] ∧
  _require_3D self = true.
Proof. split; [right; left | repeat split]. Qed.

Lemma require_3D_aggregate_witness :
  let self := (registrations spec_example (empty_calculator false)).1 in
  registrations spec_example (empty_calculator false) = (self, Return tt) ∧
  name <$> _descriptors self = ["A"; "B"] ∧
  (_require_3D self = true ↔
   ∃ d, d ∈ reachable (_descriptors self) ∧ require_3D d = true) ∧
  _register_one sC false true self = (self, Return tt) ∧
  _require_3D (_register_one sG false true self).1 = true.
Proof.
  intros self.
  assert (Hreg : registrations spec_example (empty_calculator false) = (self, Return tt))
    by reflexivity.
  destruct (require_3D_aggregate _ _ _ Hreg) as (Hiff & Hskip & Hdep).
  split; [exact Hreg|]. split; [reflexivity|]. split; [exact Hiff|]. split.
  - apply Hskip. reflexivity.
  - apply (Hdep sG false true sC); [reflexivity | right; left | reflexivity].
Defined.

(** ** C7 *)

(** With [A], which needs explicit hydrogens, and [B], which does not, the
    aggregate holds both values; with no unit at all it holds none. *)
Lemma hydrogen_aggregate_not_boolean :
  (∀ b : bool, _explicit_hydrogens (calculator_of [sA; sB]) ≠ {[ b ]}) ∧
  elements (_explicit_hydrogens (calculator_of [sA; sB])) = [false; true] ∧
  (∀ b : bool, _explicit_hydrogens (@empty_calculator unit false) ≠ {[ b ]}).
Proof.
  split; [|split].
  - intros b H. apply (f_equal elements) in H. rewrite elements_singleton in H.
    vm_compute in H. discriminate H.
  - reflexivity.
  - intros b H. apply (f_equal elements) in H. rewrite elements_singleton in H.
    vm_compute in H. discriminate H.
Qed.

Lemma aggregates_cover_reachable_witness :
  let self := (registrations spec_example (empty_calculator false)).1 in
  registrations spec_example (empty_calculator false) = (self, Return tt) ∧
  _require_3D self = existsb require_3D (reachable (_descriptors self)) ∧
  (true ∈ _explicit_hydrogens self ↔
   existsb explicit_hydrogens (reachable (_descriptors self)) = true).
Proof.
  intros self.
  assert (Hreg : registrations spec_example (empty_calculator false) = (self, Return tt))
    by reflexivity.
  destruct (aggregates_cover_reachable _ _ _ Hreg) as (H3 & _ & _ & Hh & _).
  split; [exact Hreg|]. split; [exact H3 | exact Hh].
Defined.

(** ** C5 *)

Lemma multiple_fragments_failure_witness :
  identities_unique [sF; sA] ∧
  ∃ st' ys new,
    _calculate (calculator_of [sF; sA]) (cxt_of 2) store0 = (st', ys, None) ∧
    length ys = 2 ∧
    ys !! 0 = Some (Missing MultipleFragments [uid sF]) ∧
    calls st' = new ++ calls store0 ∧ uid sF ∉ new.
Proof.
  split; [exact sample_identities_unique|].
  destruct (multiple_fragments_failure (calculator_of [sF; sA]) (cxt_of 2) store0 0 sF)
    as (st' & ys & e & new & Hrun & Hlen & Hy & Hcalls & Hnew).
  - exact sample_identities_unique.
  - reflexivity.
  - reflexivity.
  - simpl. lia.
  - assert (Hnone : (_calculate (calculator_of [sF; sA]) (cxt_of 2) store0).2 = None)
      by reflexivity.
    rewrite Hrun in Hnone. simpl in Hnone. subst e.
    exists st', ys, new. split; [exact Hrun|]. split; [exact (Hlen eq_refl)|].
    split; [apply Hy; lia|]. split; [exact Hcalls | exact Hnew].
Defined.

(** ** C6 *)

(** [F] requires a single fragment and depends on [X], which breaks.  With
    two fragments the code fails [F] at once, before [X] is requested; in
    the order of the specification [X] is resolved first and its exception
    surfaces. *)
Lemma fragment_check_not_after_dependencies :
  let self := calculator_of [sF] in
  let code := _calculate_one self (cxt_of 2) sF true store0 in
  let spec := spec_calculate_one self (cxt_of 2) sF true store0 in
  code.2 = Raise (MissingValueException MultipleFragments) ∧
  calls code.1 = [] ∧ get_stack (cxt_of 2) code.1 = [uid sF] ∧
  spec.2 = Raise (Raised 7) ∧
  calls spec.1 = [uid sX] ∧ get_stack (cxt_of 2) spec.1 = [uid sF; uid sX] ∧
  code.2 ≠ spec.2.
Proof. vm_compute. repeat split. discriminate. Qed.

Lemma fragment_check_before_dependencies_witness :
  _cache store0 !! uid sF = None ∧
  _calculate_one (calculator_of [sF]) (cxt_of 2) sF true store0 =
  (enter (cxt_of 2) sF true store0, Raise (MissingValueException MultipleFragments)).
Proof.
  split; [reflexivity|].
  apply (fragment_check_before_dependencies (calculator_of [sF]) (cxt_of 2) sF true store0);
    reflexivity.
Defined.

(** ** C8 *)

Lemma results_follow_registration_order_witness :
  let self := calculator_of [sB; sA] in
  pandas_columns self = ["B"; "A"] ∧
  (_calculate self (cxt_of 1) store0).1.2 = [Scalar 2; Scalar 1] ∧
  ∀ self', _register_one sE false false self = (self', Return tt) →
           _descriptors self' = _descriptors self ++ [sE].
Proof.
  intros self.
  destruct (results_follow_registration_order self (cxt_of 1) store0)
    as (_ & Happend & _).
  split; [reflexivity|]. split; [reflexivity|].
  intros self' Hone. exact (Happend sE false self' Hone).
Defined.

(** ** C9 *)

Lemma cache_is_per_structure_witness :
  let self := calculator_of [sB; sA] in
  let stale := mkStore {[ uid sA := Scalar 99 ]} ∅ ∅ [] in
  (_calculate self (cxt_of 1) stale).1.2 = (_calculate self (cxt_of 1) store0).1.2 ∧
  (__call__ from_calc self tt 0%Z stale).2 = Return [Scalar 2; Scalar 1].
Proof.
  intros self stale.
  destruct (cache_is_per_structure from_calc self) as (_ & Hsame & Hserial).
  split; [apply Hsame|].
  apply (Hserial [tt; tt] 0%Z store0 1 tt); reflexivity.
Defined.

(** ** C10 *)

(** [D] fails on its own and again as a dependency of [E]: the request of
    [E] attaches the context to [D] anew, and the [finally] clause of the
    iteration of [E] removes the reference of [E] only.  When the
    evaluation is over, [D], whose result was yielded first, still refers
    to the context. *)
Lemma yielded_descriptor_keeps_context :
  let self := calculator_of [sD; sE] in
  (_calculate self (cxt_of 1) store0).1.2 =
    [Missing (Raised 0) [uid sD]; Missing (Raised 0) [uid sE; uid sD]] ∧
  (_calculate self (cxt_of 1) store0).2 = None ∧
  _context (_calculate self (cxt_of 1) store0).1.1 !! uid sE = None ∧
  _context (_calculate self (cxt_of 1) store0).1.1 !! uid sD = Some (cxt_of 1).
Proof. vm_compute. repeat split. Qed.

Lemma context_removed_after_iteration_witness :
  let self := calculator_of [sE; sD] in
  _context (_calculate_one self (cxt_of 1) sE true store0).1 !! uid sE = Some (cxt_of 1) ∧
  _context (_calculate_step self (cxt_of 1) sE store0).1 !! uid sE = None ∧
  _context (_calculate_step self (cxt_of 1) sE store0).1 !! uid sD =
    _context (_calculate_one self (cxt_of 1) sE true store0).1 !! uid sD ∧
  _context (store_at self (cxt_of 1) (_descriptors self) 2 (cache_clear store0)) !! uid sD
  = None.
Proof.
  intros self.
  destruct (context_removed_after_iteration self (cxt_of 1))
    as (Hset & Hstep & Hother & _ & Hat).
  split; [|split; [|split]].
  - eapply (Hset sE store0); [reflexivity|]. apply surjective_pairing.
  - apply Hstep.
  - apply Hother. discriminate.
  - apply (Hat store0 1 sD); [reflexivity | vm_compute; lia].
Defined.

(** ** Registration *)

Lemma getitem_registered_witness :
  let self := (registrations two_registrations (empty_calculator false)).1 in
  registrations two_registrations (empty_calculator false) = (self, Return tt) ∧
  __getitem__ self "B" = Some sB ∧ __getitem__ self "C" = None.
Proof.
  intros self.
  assert (Hreg : registrations two_registrations (empty_calculator false)
                 = (self, Return tt)) by reflexivity.
  destruct (getitem_registered _ _ _ _ Hreg) as (Hget & Hmiss & _).
  split; [exact Hreg|]. split.
  - apply (Hget sB). right; left.
  - apply Hmiss. change (name <$> _descriptors self) with ["A"; "B"].
    intros [H|[H|H]%elem_of_cons]%elem_of_cons; [discriminate H | discriminate H | inversion H].
Defined.

Lemma registered_names_unique_witness :
  let self := (registrations two_registrations (empty_calculator false)).1 in
  registrations two_registrations (empty_calculator false) = (self, Return tt) ∧
  NoDup (name <$> _descriptors self) ∧ size (_name_dict self) = __len__ self.
Proof.
  intros self.
  assert (Hreg : registrations two_registrations (empty_calculator false)
                 = (self, Return tt)) by reflexivity.
  split; [exact Hreg|]. exact (registered_names_unique _ _ _ _ Hreg).
Defined.

Lemma register_one_failure_witness :
  let self := (registrations two_registrations (empty_calculator false)).1 in
  let self' := (_register_one sA3 false false self).1 in
  registrations two_registrations (empty_calculator false) = (self, Return tt) ∧
  _register_one sA3 false false self =
    (self', Raise (DuplicatedDescriptorName (uid sA3) (uid sA))) ∧
  _descriptors self' = _descriptors self ∧
  _require_3D self = false ∧ _require_3D self' = true.
Proof.
  intros self self'.
  assert (Hreg : registrations two_registrations (empty_calculator false)
                 = (self, Return tt)) by reflexivity.
  assert (Hone : _register_one sA3 false false self =
                 (self', Raise (DuplicatedDescriptorName (uid sA3) (uid sA))))
    by reflexivity.
  destruct (register_one_failure _ _ _ _ _ _ _ _ Hreg Hone)
    as (old & _ & _ & _ & _ & Hd & _ & H3 & _).
  split; [exact Hreg|]. split; [exact Hone|]. split; [exact Hd|].
  split; [reflexivity|]. rewrite H3. reflexivity.
Defined.

Lemma register_flattens_witness :
  register nested false (empty_calculator false) =
  register_events [inl sB; inl sC; inl sD; inl sA] false (empty_calculator false) ∧
  register nested_scan_fails false (empty_calculator false) =
  register_events [inl sB; inr AttributeError; inl sA] false (empty_calculator false) ∧
  register nested_text false (empty_calculator false) =
  register_events [inl sB; inr RecursionError; inl sA] false (empty_calculator false) ∧
  register nested_bad false (empty_calculator false) =
  register_events [inl sB; inr ValueError; inl sA] false (empty_calculator false).
Proof.
  split; [|split; [|split]].
  - exact (register_flattens nested false (empty_calculator false)).
  - exact (register_flattens nested_scan_fails false (empty_calculator false)).
  - exact (register_flattens nested_text false (empty_calculator false)).
  - exact (register_flattens nested_bad false (empty_calculator false)).
Defined.

Lemma register_appends_in_order_witness :
  let self' := (register nested true (empty_calculator false)).1 in
  register nested true (empty_calculator false) = (self', Return tt) ∧
  _descriptors self' = [sB; sD; sA].
Proof.
  intros self'.
  assert (Hreg : register nested true (empty_calculator false) = (self', Return tt))
    by reflexivity.
  split; [exact Hreg|].
  destruct (register_appends_in_order _ _ _ _ Hreg) as [_ Hd]. rewrite Hd. reflexivity.
Defined.

Lemma register_ignore_3D_adds_no_3D_witness :
  let self' := (register nested true (empty_calculator false)).1 in
  ∃ added, _descriptors self' = _descriptors (@empty_calculator unit false) ++ added ∧
           Forall (λ d, require_3D d = false) added.
Proof.
  intros self'.
  apply (register_ignore_3D_adds_no_3D nested (empty_calculator false) self' (Return tt)).
  reflexivity.
Defined.

Lemma register_errors_witness :
  let self' := (register nested_scan_fails false (empty_calculator false)).1 in
  register nested_scan_fails false (empty_calculator false) = (self', Raise AttributeError) ∧
  _descriptors self' = [sB] ∧
  inr AttributeError ∈ flatten_events nested_scan_fails.
Proof.
  intros self'.
  assert (Hreg : register nested_scan_fails false (empty_calculator false)
                 = (self', Raise AttributeError)) by reflexivity.
  split; [exact Hreg|]. split; [reflexivity|].
  destruct (register_errors _ _ _ _ _ Hreg) as [Hin | (d & old & He & _)];
    [exact Hin | discriminate He].
Defined.

Lemma descriptors_set_replaces_witness :
  let self := calculator_of [sA; sB] in
  let self' := (descriptors_set (Instance sD) self).1 in
  descriptors_set (Instance sD) self = (self', Return tt) ∧
  _descriptors self' = [sD] ∧ NoDup (name <$> _descriptors self').
Proof.
  intros self self'.
  assert (Hset : descriptors_set (Instance sD) self = (self', Return tt)) by reflexivity.
  destruct (descriptors_set_replaces _ _ _ Hset) as (Hd & _ & _ & _ & Hnd & _).
  split; [exact Hset|]. split; [exact Hd | exact Hnd].
Defined.

Lemma pickle_round_trip_witness :
  let self := (registrations two_registrations (empty_calculator true)).1 in
  registrations two_registrations (empty_calculator true) = (self, Return tt) ∧
  _descriptors (unpickle (__reduce_ex__ self)) = [sA; sB] ∧
  _name_dict (unpickle (__reduce_ex__ self)) = _name_dict self ∧
  _debug self = true ∧ _debug (unpickle (__reduce_ex__ self)) = false.
Proof.
  intros self.
  assert (Hreg : registrations two_registrations (empty_calculator true)
                 = (self, Return tt)) by reflexivity.
  split; [exact Hreg|]. rewrite (pickle_round_trip _ _ _ _ Hreg). repeat split.
Defined.

(** ** Evaluation *)

Lemma call_returns_len_witness :
  ∃ st' ys,
    __call__ from_calc (calculator_of [sE; sD; sB]) tt 0%Z store0 = (st', Return ys) ∧
    length ys = 3.
Proof.
  pose proof (call_returns_len from_calc (calculator_of [sE; sD; sB]) tt 0%Z store0) as H.
  change (from_calc (calculator_of [sE; sD; sB]) tt 0%Z) with (Return (cxt_of 1)) in H.
  cbv beta iota in H.
  assert (Hnone : (_calculate (calculator_of [sE; sD; sB]) (cxt_of 1) store0).2 = None)
    by reflexivity.
  rewrite Hnone in H. destruct H as (st' & ys & Hcall & Hlen & _).
  exists st', ys. split; [exact Hcall | exact Hlen].
Defined.

Lemma serial_rows_witness :
  ∃ st' rows,
    _serial from_calc (calculator_of [sB; sA]) [tt; tt; tt] 0%Z store0 = (st', rows, None) ∧
    length rows = 3 ∧
    ∃ r, rows !! 1 = Some r ∧ length r = 2 ∧
         (__call__ from_calc (calculator_of [sB; sA]) tt 0%Z store0).2 = Return r.
Proof.
  destruct (serial_rows from_calc (calculator_of [sB; sA]) [tt; tt; tt] 0%Z store0)
    as (st' & rows & e & Hrun & Hle & Hrows & He).
  assert (Hnone : (_serial from_calc (calculator_of [sB; sA]) [tt; tt; tt] 0%Z store0).2
                  = None) by reflexivity.
  rewrite Hrun in Hnone. simpl in Hnone. subst e. simpl in He.
  exists st', rows. split; [exact Hrun|]. split; [exact He|].
  destruct (Hrows 1 tt eq_refl) as (r & Hr & Hlen & Hcall); [rewrite He; lia|].
  exists r. split; [exact Hr|]. split; [exact Hlen | apply Hcall].
Defined.

Lemma calculate_touches_reachable_only_witness :
  ∃ new,
    calls (_calculate (calculator_of [sF; sB]) (cxt_of 2) store0).1.1 = new ++ [] ∧
    (uid sF ∉ new) ∧ (uid sX ∉ new).
Proof.
  destruct (calculate_touches_reachable_only (calculator_of [sF; sB]) (cxt_of 2) store0)
    as (new & Hnew & _ & _).
  exists new. split; [exact Hnew|].
  change (new ++ calls store0) with (new ++ []) in Hnew.
  rewrite app_nil_r in Hnew. vm_compute in Hnew. subst new.
  split; intros [H|[H|H]%elem_of_cons]%elem_of_cons;
    first [discriminate H | inversion H].
Defined.

Lemma returned_values_stay_cached_witness :
  let self := calculator_of [sB; sA] in
  (_calculate self (cxt_of 1) store0).1.2 !! 1 = Some (Scalar 1) ∧
  _cache (_calculate self (cxt_of 1) store0).1.1 !! uid sA = Some (Scalar 1).
Proof.
  intros self.
  apply (returned_values_stay_cached self (cxt_of 1) store0 1 sA
           (store_at self (cxt_of 1) (_descriptors self) 1 (cache_clear store0)));
    [reflexivity | vm_compute; lia | reflexivity].
Defined.

Lemma results_are_uncached_values_witness :
  identities_unique [sF; sA] ∧
  ∃ y, (_calculate (calculator_of [sF; sA]) (cxt_of 2) store0).1.2 !! 1 = Some y ∧
       y = Scalar 1.
Proof.
  split; [exact sample_identities_unique|].
  assert (Hreach : 1 ≤ length (_calculate (calculator_of [sF; sA]) (cxt_of 2) store0).1.2)
    by (vm_compute; lia).
  pose proof (results_are_uncached_values (calculator_of [sF; sA]) (cxt_of 2) store0 1 sA
                sample_identities_unique eq_refl Hreach) as H.
  hnf in H. destruct H as (y & Hy & Hval).
  exists y. split; [exact Hy | exact Hval].
Defined.

Lemma stack_starts_with_requested_unit_witness :
  let self := calculator_of [sE] in
  let st' := (_calculate_one self (cxt_of 1) sE true store0).1 in
  _calculate_one self (cxt_of 1) sE true store0
    = (st', Raise (MissingValueException (Raised 0))) ∧
  ∃ rest, get_stack (cxt_of 1) st' = uid sE :: rest ∧
          Forall (λ k, k ∈ uid <$> closure_deps (dependencies sE)) rest.
Proof.
  intros self st'.
  assert (Hone : _calculate_one self (cxt_of 1) sE true store0
                 = (st', Raise (MissingValueException (Raised 0)))) by reflexivity.
  split; [exact Hone|].
  destruct (stack_starts_with_requested_unit _ _ _ _ _ _ Hone) as [Hstack _].
  apply Hstack. reflexivity.
Defined.

Lemma type_check_in_debug_mode_witness :
  let self := debug_calculator_of [sT] in
  _debug self = true ∧
  (_calculate self (cxt_of 1) store0).1.2 = [Error TypeError [uid sT]] ∧
  _calculate_step self (cxt_of 1) sT store0 =
  (del_context sT (log_call sT (enter (cxt_of 1) sT true store0)),
   Return (Error TypeError (get_stack (cxt_of 1) (enter (cxt_of 1) sT true store0)))).
Proof.
  intros self. split; [reflexivity|]. split; [reflexivity|].
  destruct (type_check_in_debug_mode self (cxt_of 1) sT store0
              (enter (cxt_of 1) sT true store0) [] (Scalar 10)
              eq_refl eq_refl eq_refl eq_refl) as (Hbad & _ & _).
  apply (Hbad (λ v, match v with Scalar _ => false | _ => true end)); reflexivity.
Defined.

(** ** Modules *)

Lemma module_scan_members_witness :
  scan_sample sample_module true =
    Return [(0, Return 10); (0, Return 30); (1, Raise IOError)] ∧
  ((1, Raise IOError) ∈ [(0, Return 10); (0, Return 30); ((1, Raise IOError) : Obj)] ↔
   ∃ name, name ∈ scanned_names sample_module ∧ public name = true ∧
           mod_attr sample_module !! name = Some (1, Raise IOError) ∧
           (is_class (1, Raise IOError) = true ∨
            (true = true ∧ is_mod (1, Raise IOError) = true))).
Proof.
  assert (Hscan : scan_sample sample_module true
                  = Return [(0, Return 10); (0, Return 30); (1, Raise IOError)])
    by reflexivity.
  split; [exact Hscan|].
  exact (module_scan_members is_class is_mod line_of 1000 sample_module true _ Hscan
           (1, Raise IOError)).
Defined.

Lemma module_scan_sorted_witness :
  scan_sample sample_module true =
    Return [(0, Return 10); (0, Return 30); (1, Raise IOError)] ∧
  StronglySorted (λ a b, sort_key line_of 1000 a ≤ sort_key line_of 1000 b)
                 [(0, Return 10); (0, Return 30); ((1, Raise IOError) : Obj)] ∧
  sort_key line_of 1000 (1, Raise IOError) = 1000.
Proof.
  assert (Hscan : scan_sample sample_module true
                  = Return [(0, Return 10); (0, Return 30); (1, Raise IOError)])
    by reflexivity.
  split; [exact Hscan|].
  destruct (module_scan_sorted is_class is_mod line_of 1000 sample_module true _ Hscan)
    as (found & _ & _ & _ & Hsorted & _).
  split; [exact Hsorted | reflexivity].
Defined.

Lemma module_scan_raises_witness :
  scan_sample broken_module true = Raise AttributeError ∧
  scan_sample builtin_module true = Raise TypeError.
Proof.
  split.
  - apply (module_scan_raises is_class is_mod line_of 1000 broken_module true).
    left. split; [reflexivity|]. exists "Gone".
    split; [right; left | split; reflexivity].
  - apply (module_scan_raises is_class is_mod line_of 1000 builtin_module true).
    right. exists [(0, Return 30); (0, Raise TypeError)], 1, (0, Raise TypeError).
    split; [reflexivity|]. split; [reflexivity|]. split; [reflexivity|].
    split; [discriminate|].
    intros j d' Hj Hl. destruct j as [|j]; [|lia]. injection Hl as <-.
    exists 30. reflexivity.
Defined.

End Checks.
